(** * The route guide server: request handlers of [route_guide_server.cc]

    A shallow embedding of the four request handlers of [RouteGuideImpl]
    ([GetFeature], [ListFeatures], [RecordRoute], [RouteChat]) and of the
    helpers [GetFeatureName], [ConvertToRadians] and [GetDistance],
    followed by the properties the specification states about them.

    Conventions.
    - Streams handed to a handler by the transport ([ServerReader],
      [ServerWriter], [ServerReaderWriter]) are lists: the inbound list is
      what successive [Read] calls deliver before [Read] returns [false];
      the outbound list is the sequence of messages passed to [Write].
    - A C++ [int] is a [Z] kept in the 32-bit two's complement range by
      [wrap_int]; [float] is IEEE binary32, carried by [spec_float] with
      precision 24 and maximal exponent 128.  [RecordRoute] is modelled
      for any distance function; [GetDistance] itself is modelled over the
      functions of the C mathematics library it calls.
    - [RouteChat] sessions run concurrently; their interleaving is a
      schedule, and a scheduled session advances by one statement. *)

From Stdlib Require Import ZArith Lia SpecFloat.
From stdpp Require Import base option list strings gmap.

Local Open Scope Z_scope.

(** ** Messages

    Modelled from the spec: the generated header [route_guide.grpc.pb.h] is
    not part of the sources.  The specification's data model gives the
    messages below; coordinates and summary fields are integers.  The
    fields of [RouteSummary] are 32 bits wide: a setter keeps the low 32
    bits of what it is given, in two's complement (see [RecordRoute]). *)

Record Point := { latitude : Z; longitude : Z }.

Record Feature := { name : string; location : Point }.

Record Rectangle := { lo : Point; hi : Point }.

Record RouteNote := { note_location : Point; message : string }.

Record RouteSummary := {
  point_count : Z;
  feature_count : Z;
  distance : Z;
  elapsed_time : Z
}.

(** A default-constructed message: every field holds its zero value. *)
Definition Point_default : Point := {| latitude := 0; longitude := 0 |}.
Definition Feature_default : Feature :=
  {| name := ""; location := Point_default |}.

#[global] Instance Point_eq_dec : EqDecision Point.
Proof. solve_decision. Defined.
#[global] Instance Feature_eq_dec : EqDecision Feature.
Proof. solve_decision. Defined.
#[global] Instance RouteNote_eq_dec : EqDecision RouteNote.
Proof. solve_decision. Defined.

(** The status a handler returns.  Every handler of the source returns
    [Status::OK]; [NOT_FOUND] is the alternative left in a comment of
    [GetFeature]. *)
Variant StatusCode := OK | NOT_FOUND.

Record Status := { error_code : StatusCode; error_message : string }.

Definition Status_OK : Status := {| error_code := OK; error_message := "" |}.

(** ** Coordinate comparison

    [a.latitude() == b.latitude() && a.longitude() == b.longitude()], the
    test used by [GetFeatureName] and by [RouteChat]. *)
Definition same_point (a b : Point) : bool :=
  (latitude a =? latitude b) && (longitude a =? longitude b).

(** ** GetFeatureName *)

Fixpoint GetFeatureName (point : Point) (feature_list : list Feature) : string :=
  match feature_list with
  | [] => ""
  | f :: rest =>
      if same_point (location f) point then name f
      else GetFeatureName point rest
  end.

(** [std::string::empty]. *)
Definition string_empty (s : string) : bool :=
  match s with EmptyString => true | String _ _ => false end.

(** ** GetFeature

    [feature] is the response message the transport passes in; the handler
    sets its name, then overwrites its location with a copy of [point]. *)
Definition set_name (feature : Feature) (value : string) : Feature :=
  {| name := value; location := location feature |}.

Definition CopyFrom_location (feature : Feature) (point : Point) : Feature :=
  {| name := name feature; location := point |}.

Definition GetFeature (feature_list_ : list Feature) (point : Point)
    (feature : Feature) : Status * Feature :=
  let feature := set_name feature (GetFeatureName point feature_list_) in
  let feature := CopyFrom_location feature point in
  (Status_OK, feature).

(** ** ListFeatures *)

(** The four bounds computed at the head of [ListFeatures]. *)
Record Bounds := {
  left_bound : Z;
  right_bound : Z;
  top_bound : Z;
  bottom_bound : Z
}.

Definition normalize (rectangle : Rectangle) : Bounds :=
  let lo := lo rectangle in
  let hi := hi rectangle in
  {| left_bound := Z.min (longitude lo) (longitude hi);
     right_bound := Z.max (longitude lo) (longitude hi);
     top_bound := Z.max (latitude lo) (latitude hi);
     bottom_bound := Z.min (latitude lo) (latitude hi) |}.

(** The condition guarding [writer->Write(f)]. *)
Definition inside (b : Bounds) (f : Feature) : bool :=
  (longitude (location f) >=? left_bound b) &&
  (longitude (location f) <=? right_bound b) &&
  (latitude (location f) >=? bottom_bound b) &&
  (latitude (location f) <=? top_bound b).

(** The range-for over [feature_list_]; [writer] is the sequence of
    messages written to the response stream so far. *)
Fixpoint ListFeatures_loop (b : Bounds) (feature_list : list Feature)
    (writer : list Feature) : list Feature :=
  match feature_list with
  | [] => writer
  | f :: rest =>
      ListFeatures_loop b rest (if inside b f then writer ++ [f] else writer)
  end.

Definition ListFeatures (feature_list_ : list Feature) (rectangle : Rectangle)
    (writer : list Feature) : Status * list Feature :=
  (Status_OK, ListFeatures_loop (normalize rectangle) feature_list_ writer).

(** ** Machine arithmetic used by RecordRoute *)

(** A value stored in a C++ [int]: 32-bit two's complement. *)
Definition wrap_int (z : Z) : Z := (z + 2 ^ 31) mod 2 ^ 32 - 2 ^ 31.

(** [float] is IEEE binary32. *)
Definition float : Type := spec_float.
Definition float_zero : float := S754_zero false.
Definition float_add (x y : float) : float := SFadd 24 128 x y.

(** [static_cast<long>(x)] for a [float] [x]: the fractional part is
    discarded (truncation toward zero).  The conversion is defined by the
    language only when the truncated value fits a [long]; for the other
    values (NaN, infinities, magnitudes from 2^63 on) the model returns
    what the x86-64 conversion instruction yields, the least [long]. *)
Definition LONG_MIN : Z := - 2 ^ 63.

Definition float_to_long (x : float) : Z :=
  match x with
  | S754_zero _ => 0
  | S754_finite s m e =>
      let z := cond_Zopp s (Z.shiftl (Z.pos m) e) in
      if (LONG_MIN <=? z) && (z <? 2 ^ 63) then z else LONG_MIN
  | S754_infinity _ | S754_nan => LONG_MIN
  end.

(** Ticks per second of [system_clock] (nanosecond ticks). *)
Definition system_clock_ticks : Z := 1000000000.

(** [duration_cast<seconds>(d).count()]: whole seconds, truncated. *)
Definition duration_cast_seconds (d : Z) : Z := Z.quot d system_clock_ticks.

(** ** RecordRoute *)

Section RecordRoute.

(** The distance function [RecordRoute] calls; the handler is modelled
    for any such function, the [GetDistance] of lines 72-89 among them. *)
Variable GetDistance : Point -> Point -> float.

(** The locals of [RecordRoute] that live across iterations. *)
Record RouteLocals := {
  l_point_count : Z;
  l_feature_count : Z;
  l_distance : float;
  l_previous : Point
}.

Definition RecordRoute_init : RouteLocals :=
  {| l_point_count := 0;
     l_feature_count := 0;
     l_distance := float_zero;
     l_previous := Point_default |}.

(** One iteration of the [while (reader->Read(&point))] loop. *)
Definition RecordRoute_body (feature_list_ : list Feature)
    (st : RouteLocals) (point : Point) : RouteLocals :=
  let point_count := wrap_int (l_point_count st + 1) in
  let feature_count :=
    if negb (string_empty (GetFeatureName point feature_list_))
    then wrap_int (l_feature_count st + 1)
    else l_feature_count st in
  let distance :=
    if negb (point_count =? 1)
    then float_add (l_distance st) (GetDistance (l_previous st) point)
    else l_distance st in
  {| l_point_count := point_count;
     l_feature_count := feature_count;
     l_distance := distance;
     l_previous := point |}.

Definition RecordRoute_loop (feature_list_ : list Feature)
    (reader : list Point) (st : RouteLocals) : RouteLocals :=
  fold_left (RecordRoute_body feature_list_) reader st.

(** [start_time] and [end_time] are the two readings of
    [system_clock::now()], in ticks; [summary] is the response message
    the transport passes in.  [set_distance] and [set_elapsed_time] take a
    32-bit integer: the [long] they are called with is narrowed to it. *)
Definition RecordRoute (feature_list_ : list Feature)
    (start_time end_time : Z) (reader : list Point)
    (summary : RouteSummary) : Status * RouteSummary :=
  let st := RecordRoute_loop feature_list_ reader RecordRoute_init in
  let summary :=
    {| point_count := l_point_count st;
       feature_count := l_feature_count st;
       distance := wrap_int (float_to_long (l_distance st));
       elapsed_time :=
         wrap_int (duration_cast_seconds (end_time - start_time)) |} in
  (Status_OK, summary).

(** The distances between each point of a route and its immediate
    predecessor, in route order. *)
Fixpoint hops (points : list Point) : list float :=
  match points with
  | p :: (q :: _) as rest => GetDistance p q :: hops rest
  | _ => []
  end.

(** Their sum, accumulated from 0.0 in route order. *)
Definition route_length (points : list Point) : float :=
  fold_left float_add (hops points) float_zero.

(** The points of a route that carry a named feature. *)
Definition named_points (feature_list : list Feature)
    (points : list Point) : list Point :=
  filter (fun p => GetFeatureName p feature_list <> "") points.

End RecordRoute.

(** ** RouteChat

    Many calls of [RouteChat] run at once, each on its own stream, all on
    the same [received_notes_] and [mu_].  A session is identified by a
    number; its control point within the handler is a [Position]. *)

Definition session_id : Type := nat.

Inductive Position :=
  | AtRead
      (** at the loop head, [stream->Read(&note)] *)
  | AtLock (note : RouteNote)
      (** [note] was read; about to construct the [unique_lock] on [mu_] *)
  | AtScan (note : RouteNote) (i : nat)
      (** in the range-for, owning the lock, about to visit
          [received_notes_[i]] *)
  | AtUnlock
      (** after [push_back], at the end of the loop body, where the lock is
          released *)
  | Returned (status : Status).

Record Session := {
  position : Position;
  inbound : list RouteNote;   (** what [Read] has yet to deliver *)
  outbound : list RouteNote   (** what was passed to [Write], in order *)
}.

Record ChatState := {
  received_notes_ : list RouteNote;
  mu_ : option session_id;    (** the owner of the mutex, when locked *)
  sessions : gmap session_id Session
}.

(** A session entering the handler. *)
Definition Session_start (stream : list RouteNote) : Session :=
  {| position := AtRead; inbound := stream; outbound := [] |}.

(** The service before any note was received. *)
Definition ChatState_init (streams : gmap session_id (list RouteNote)) : ChatState :=
  {| received_notes_ := [];
     mu_ := None;
     sessions := Session_start <$> streams |}.

(** The next statement of session [s].  The result is [None] when [s]
    cannot move: it is unknown, it has returned, or it waits for [mu_]. *)
Definition RouteChat_step (s : session_id) (st : ChatState) : option ChatState :=
  match sessions st !! s with
  | None => None
  | Some sess =>
      match position sess with
      | AtRead =>
          match inbound sess with
          | note :: rest =>
              Some {| received_notes_ := received_notes_ st;
                      mu_ := mu_ st;
                      sessions :=
                        <[s := {| position := AtLock note;
                                  inbound := rest;
                                  outbound := outbound sess |}]> (sessions st) |}
          | [] =>
              Some {| received_notes_ := received_notes_ st;
                      mu_ := mu_ st;
                      sessions :=
                        <[s := {| position := Returned Status_OK;
                                  inbound := [];
                                  outbound := outbound sess |}]> (sessions st) |}
          end
      | AtLock note =>
          match mu_ st with
          | Some _ => None
          | None =>
              Some {| received_notes_ := received_notes_ st;
                      mu_ := Some s;
                      sessions :=
                        <[s := {| position := AtScan note 0;
                                  inbound := inbound sess;
                                  outbound := outbound sess |}]> (sessions st) |}
          end
      | AtScan note i =>
          match received_notes_ st !! i with
          | Some n =>
              Some {| received_notes_ := received_notes_ st;
                      mu_ := mu_ st;
                      sessions :=
                        <[s := {| position := AtScan note (S i);
                                  inbound := inbound sess;
                                  outbound :=
                                    if same_point (note_location n) (note_location note)
                                    then outbound sess ++ [n]
                                    else outbound sess |}]> (sessions st) |}
          | None =>
              Some {| received_notes_ := received_notes_ st ++ [note];
                      mu_ := mu_ st;
                      sessions :=
                        <[s := {| position := AtUnlock;
                                  inbound := inbound sess;
                                  outbound := outbound sess |}]> (sessions st) |}
          end
      | AtUnlock =>
          Some {| received_notes_ := received_notes_ st;
                  mu_ := None;
                  sessions :=
                    <[s := {| position := AtRead;
                              inbound := inbound sess;
                              outbound := outbound sess |}]> (sessions st) |}
      | Returned _ => None
      end
  end.

(** An interleaving is the list of the sessions scheduled, in order; a
    scheduled session that cannot move leaves the state as it is. *)
Fixpoint run (schedule : list session_id) (st : ChatState) : ChatState :=
  match schedule with
  | [] => st
  | s :: rest => run rest (default st (RouteChat_step s st))
  end.

(** The positions in which a session owns the lock. *)
Definition owns_lock (p : Position) : bool :=
  match p with
  | AtScan _ _ | AtUnlock => true
  | _ => false
  end.

(** Mutual exclusion: a session inside the critical section is the owner
    recorded in [mu_]. *)
Definition lock_inv (st : ChatState) : Prop :=
  forall s sess,
    sessions st !! s = Some sess ->
    owns_lock (position sess) = true ->
    mu_ st = Some s.

(** The stored notes at the location of [note], in append order. *)
Definition notes_at (note : RouteNote) (log : list RouteNote) : list RouteNote :=
  filter (fun n => note_location n = note_location note) log.

(** The rectangle whose corners are the normalized bounds: [lo] at the
    bottom left, [hi] at the top right. *)
Definition Bounds_to_Rectangle (b : Bounds) : Rectangle :=
  {| lo := {| latitude := bottom_bound b; longitude := left_bound b |};
     hi := {| latitude := top_bound b; longitude := right_bound b |} |}.

(** A feature lies in the closed box [b]. *)
Definition in_box (b : Bounds) (f : Feature) : Prop :=
  left_bound b <= longitude (location f) <= right_bound b /\
  bottom_bound b <= latitude (location f) <= top_bound b.

#[global] Instance in_box_dec b f : Decision (in_box b f).
Proof. unfold in_box. apply _. Defined.

(** ** Definitions used to state and prove the properties *)

(** What holds of session [s] from the moment it owns the lock for [note],
    with [log] stored, [inb] still to read and [out] written, while it has
    not read a further note. *)
Definition pass_inv (log : list RouteNote) (s : session_id) (note : RouteNote)
    (inb out : list RouteNote) (st : ChatState) : Prop :=
  lock_inv st /\
  exists sess,
    sessions st !! s = Some sess /\
    (length (inbound sess) <= length inb)%nat /\
    (inbound sess = inb ->
     match position sess with
     | AtScan n i =>
         n = note /\ received_notes_ st = log /\
         outbound sess = out ++ notes_at note (take i log)
     | AtUnlock =>
         received_notes_ st = log ++ [note] /\
         outbound sess = out ++ notes_at note log
     | AtRead =>
         (log ++ [note]) `prefix_of` received_notes_ st /\
         outbound sess = out ++ notes_at note log
     | AtLock _ => False
     | Returned _ => True
     end).

(** A distance used to run [RecordRoute] on examples: the difference of
    the latitudes, as a [float]. *)
Definition latitude_gap (a b : Point) : float :=
  binary_normalize 24 128 (Z.abs (latitude b - latitude a)) 0 false.

(** Case analysis of a step: one goal per statement a session can
    execute. *)
Ltac step_cases H :=
  unfold RouteChat_step in H;
  repeat match type of H with
         | context [match ?x with _ => _ end] =>
             lazymatch x with
             | same_point _ _ => fail
             | _ => destruct x eqn:?
             end
         end;
  try discriminate H;
  try (injection H as <-).

(** Rewrite with the known position of a session. *)
Ltac use_position :=
  match goal with
  | E : position ?sess = _ |- context [position ?sess] => rewrite E
  end.

(** ** Definitions for the further properties of RouteChat *)

(** The owner recorded in [mu_] is a session inside the critical
    section. *)
Definition owner_inv (st : ChatState) : Prop :=
  forall s, mu_ st = Some s ->
    exists sess,
      sessions st !! s = Some sess /\ owns_lock (position sess) = true.

(** The notes a session has accepted from its client and not yet stored:
    the one it holds in [note], if any, then those it has yet to read. *)
Definition pending (sess : Session) : list RouteNote :=
  match position sess with
  | AtLock note | AtScan note _ => note :: inbound sess
  | AtRead | AtUnlock => inbound sess
  | Returned _ => []
  end.

Definition all_pending (st : ChatState) : list RouteNote :=
  map_to_list (sessions st) ≫= (fun entry => pending entry.2).

(** Every note of every inbound stream. *)
Definition all_notes (streams : gmap session_id (list RouteNote)) : list RouteNote :=
  map_to_list streams ≫= (fun entry => entry.2).

(** What a session writes back when it runs [stream] to the end with no
    other session storing notes meanwhile: for each note in turn, the notes
    stored so far at its location, its own earlier notes among them. *)
Fixpoint solo_replies (log stream : list RouteNote) : list RouteNote :=
  match stream with
  | [] => []
  | note :: rest => notes_at note log ++ solo_replies (log ++ [note]) rest
  end.

(** The number of statements a session executes to run [stream] to the
    end on its own, starting with [n] notes stored. *)
Fixpoint solo_steps (n : nat) (stream : list RouteNote) : nat :=
  match stream with
  | [] => 1
  | _ :: rest => (n + 4) + solo_steps (S n) rest
  end.

(** ** ConvertToRadians

    [num * 3.1415926 / 180]: [num] is promoted to [double], multiplied by
    the [double] literal, divided by 180 converted to [double], and the
    quotient is converted to [float] on return.  [double] is IEEE binary64,
    carried by [spec_float] with precision 53 and maximal exponent 1024;
    each operation rounds to nearest, ties to even. *)

Definition double : Type := spec_float.
Definition double_mul (x y : double) : double := SFmul 53 1024 x y.
Definition double_div (x y : double) : double := SFdiv 53 1024 x y.

(** An integer constant as a [double]. *)
Definition Z_to_double (z : Z) : double := binary_normalize 53 1024 z 0 false.

(** [float] to [double]: every binary32 value is a binary64 value. *)
Definition float_to_double (x : float) : double :=
  match x with
  | S754_finite s m e => binary_round 53 1024 s m e
  | _ => x
  end.

(** [double] to [float]: rounded, to an infinity when out of range. *)
Definition double_to_float (x : double) : float :=
  match x with
  | S754_finite s m e => binary_round 24 128 s m e
  | _ => x
  end.

(** The literal [3.1415926]: the [double] nearest to 31415926 / 10^7,
    which is 7074237631354954 * 2^-51. *)
Definition literal_3_1415926 : double :=
  Eval vm_compute in double_div (Z_to_double 31415926) (Z_to_double 10000000).

Definition ConvertToRadians (num : float) : float :=
  double_to_float
    (double_div (double_mul (float_to_double num) literal_3_1415926)
       (Z_to_double 180)).

(** ** GetDistance

    The haversine distance of lines 72-89.  The coordinates come through
    [float]: an integer coordinate is converted to [float] and divided by
    [kCoordFactor].  [sin], [cos], [sqrt], [atan2] and [pow] are the
    [double] functions of the C mathematics library, parameters here; their
    arguments are promoted to [double], and the results are narrowed where
    the source assigns them to a [float]. *)

Definition int_to_float (z : Z) : float := binary_normalize 24 128 z 0 false.
Definition float_sub (x y : float) : float := SFsub 24 128 x y.
Definition float_mul (x y : float) : float := SFmul 24 128 x y.
Definition float_div (x y : float) : float := SFdiv 24 128 x y.
Definition double_add (x y : double) : double := SFadd 53 1024 x y.

Definition kCoordFactor : float := int_to_float 10000000.

(** [coordinate / kCoordFactor]. *)
Definition degrees (coordinate : Z) : float :=
  float_div (int_to_float coordinate) kCoordFactor.

(** A value that is neither an infinity nor a NaN. *)
Definition is_finite (x : spec_float) : bool :=
  match x with
  | S754_zero _ | S754_finite _ _ _ => true
  | S754_infinity _ | S754_nan => false
  end.

Section GetDistance.

Variables sin cos sqrt : double -> double.
Variables atan2 pow : double -> double -> double.

Definition GetDistance (start end_ : Point) : float :=
  let lat_1 := degrees (latitude start) in
  let lat_2 := degrees (latitude end_) in
  let lon_1 := degrees (longitude start) in
  let lon_2 := degrees (longitude end_) in
  let lat_rad_1 := ConvertToRadians lat_1 in
  let lat_rad_2 := ConvertToRadians lat_2 in
  let delta_lat_rad := ConvertToRadians (float_sub lat_2 lat_1) in
  let delta_lon_rad := ConvertToRadians (float_sub lon_2 lon_1) in
  let a : float :=
    double_to_float
      (double_add
         (pow (sin (float_to_double (float_div delta_lat_rad (int_to_float 2))))
            (Z_to_double 2))
         (double_mul
            (double_mul (cos (float_to_double lat_rad_1))
               (cos (float_to_double lat_rad_2)))
            (pow (sin (float_to_double
                         (float_div delta_lon_rad (int_to_float 2))))
               (Z_to_double 2)))) in
  let c : float :=
    double_to_float
      (double_mul (Z_to_double 2)
         (atan2 (sqrt (float_to_double a))
            (sqrt (float_to_double (float_sub (int_to_float 1) a))))) in
  let R := 6371000 in
  float_mul (int_to_float R) c.

End GetDistance.


(** [magnitude_le B x]: [x] is a number, of magnitude below [2 ^ B]. *)
Definition magnitude_le (B : Z) (x : spec_float) : Prop :=
  match x with
  | S754_zero _ => True
  | S754_finite _ m e => Zdigits2 (Z.pos m) + e <= B
  | S754_infinity _ | S754_nan => False
  end.

(** ** The wording of the specification, for comparison *)

(** [ConvertToRadians] with the constant left open: [num * pi / 180]
    evaluated as the source evaluates its expression. *)
Definition ConvertToRadians_with (pi : double) (num : float) : float :=
  double_to_float
    (double_div (double_mul (float_to_double num) pi) (Z_to_double 180)).

(** Pi cut after eighteen decimals, as an integer: pi lies strictly between
    [pi_decimals / 10^18] and [(pi_decimals + 1) / 10^18]. *)
Definition pi_decimals : Z := 3141592653589793238.

(** The [double] nearest to pi (0x1.921fb54442d18p+1, the [M_PI] of the C
    library headers) and the [float] nearest to pi (0x1.921fb6p+1). *)
Definition pi_double : double := S754_finite false 7074237752028440 (-51).
Definition pi_float : float := S754_finite false 13176795 (-22).

(** The value of a [float] in units of [2^-149], the least positive
    [float]: an integer for every number. *)
Definition float_units (x : float) : Z :=
  match x with
  | S754_finite s m e => cond_Zopp s (Z.pos m * 2 ^ (e + 149))
  | _ => 0
  end.

(** The distance of a summary as the specification words it: the sum of
    the hops, as numbers, truncated to an integer. *)
Definition exact_distance (hops : list float) : Z :=
  Z.quot (foldr Z.add 0 (float_units <$> hops)) (2 ^ 149).

(** A distance used to run [RecordRoute] on long ways: 20015088 metres,
    half the circumference of the sphere of radius 6371000, between two
    different points, and nothing from a point to itself. *)
Definition half_circumference : float := S754_finite false 10007544 1.

Definition antipodal_distance (a b : Point) : float :=
  if same_point a b then float_zero else half_circumference.

(** A route of [n] points going to and fro between two antipodes on the
    equator. *)
Fixpoint to_and_fro (n : nat) (at_origin : bool) : list Point :=
  match n with
  | O => []
  | S n' =>
      {| latitude := 0; longitude := if at_origin then 0 else 1800000000 |}
      :: to_and_fro n' (negb at_origin)
  end.

(** * Properties *)

(** ** Coordinate comparison *)

Lemma same_point_spec (a b : Point) : same_point a b = true <-> a = b.
Proof.
  unfold same_point. rewrite andb_true_iff, !Z.eqb_eq.
  destruct a as [la ga], b as [lb gb]; simpl. split.
  - intros [-> ->]. reflexivity.
  - intros [= -> ->]. split; reflexivity.
Qed.

Lemma same_point_false (a b : Point) : same_point a b = false <-> a <> b.
Proof.
  rewrite <- same_point_spec. destruct (same_point a b); split; congruence.
Qed.

Lemma string_empty_spec (s : string) : string_empty s = true <-> s = "".
Proof. destruct s; simpl; split; congruence. Qed.

(** ** GetFeatureName *)

Lemma GetFeatureName_cons_eq point f rest :
  location f = point -> GetFeatureName point (f :: rest) = name f.
Proof.
  intros H. simpl. apply same_point_spec in H. rewrite H. reflexivity.
Qed.

Lemma GetFeatureName_cons_ne point f rest :
  location f <> point ->
  GetFeatureName point (f :: rest) = GetFeatureName point rest.
Proof.
  intros H. simpl. apply same_point_false in H. rewrite H. reflexivity.
Qed.

Lemma GetFeatureName_absent point feature_list :
  (forall f, f ∈ feature_list -> location f <> point) ->
  GetFeatureName point feature_list = "".
Proof.
  induction feature_list as [|f rest IH]; intros Hno; [reflexivity|].
  rewrite GetFeatureName_cons_ne by (apply Hno; left).
  apply IH. intros g Hg. apply Hno. right. exact Hg.
Qed.

Lemma GetFeatureName_skip point pre rest :
  (forall g, g ∈ pre -> location g <> point) ->
  GetFeatureName point (pre ++ rest) = GetFeatureName point rest.
Proof.
  induction pre as [|g pre IH]; intros Hno; [reflexivity|].
  rewrite <- app_comm_cons.
  rewrite GetFeatureName_cons_ne by (apply Hno; left).
  apply IH. intros h Hh. apply Hno. right. exact Hh.
Qed.

Lemma GetFeatureName_find point feature_list :
  GetFeatureName point feature_list =
    match list_find (fun f => location f = point) feature_list with
    | Some (_, f) => name f
    | None => ""
    end.
Proof.
  induction feature_list as [|f rest IH]; [reflexivity|].
  cbn [list_find]. destruct (decide (location f = point)) as [Heq|Hne].
  - apply GetFeatureName_cons_eq, Heq.
  - rewrite GetFeatureName_cons_ne by exact Hne. rewrite IH.
    destruct (list_find _ rest) as [[i g]|]; reflexivity.
Qed.

(** C6. [GetFeatureName] scans the catalog in order and returns the name
    of the first feature located exactly at [point] (the entry stdpp's
    [list_find] selects: no entry before it is at [point]); when several
    entries share the point the earliest wins, whatever follows it; when no
    entry is at [point] the result is the empty string. *)
Theorem GetFeatureName_first_match (point : Point) (feature_list : list Feature) :
  GetFeatureName point feature_list =
    match list_find (fun f => location f = point) feature_list with
    | Some (_, f) => name f
    | None => ""
    end
  /\ (forall pre f post,
        feature_list = pre ++ f :: post ->
        (forall g, g ∈ pre -> location g <> point) ->
        location f = point ->
        GetFeatureName point feature_list = name f)
  /\ ((forall f, f ∈ feature_list -> location f <> point) ->
      GetFeatureName point feature_list = "").
Proof.
  split; [apply GetFeatureName_find|]. split.
  - intros pre f post -> Hpre Hf.
    rewrite GetFeatureName_skip by exact Hpre.
    apply GetFeatureName_cons_eq, Hf.
  - apply GetFeatureName_absent.
Qed.

Lemma GetFeatureName_first_match_witness :
  let p := {| latitude := 407838351; longitude := -746143763 |} in
  let q := {| latitude := 1; longitude := 2 |} in
  let catalog :=
    [ {| name := "Berkshire Valley"; location := q |};
      {| name := "Patriots Path"; location := p |};
      {| name := "Second entry"; location := p |} ] in
  GetFeatureName p catalog = "Patriots Path" /\
  GetFeatureName {| latitude := 3; longitude := 4 |} catalog = "".
Proof.
  intros p q catalog. split.
  - apply (proj1 (proj2 (GetFeatureName_first_match p catalog))
             [ {| name := "Berkshire Valley"; location := q |} ]
             {| name := "Patriots Path"; location := p |}
             [ {| name := "Second entry"; location := p |} ]).
    + reflexivity.
    + intros g Hg. apply list_elem_of_singleton in Hg. subst g. discriminate.
    + reflexivity.
  - apply (proj2 (proj2 (GetFeatureName_first_match _ catalog))).
    intros f Hf. unfold catalog in Hf.
    repeat (apply elem_of_cons in Hf; destruct Hf as [->|Hf]; [discriminate|]).
    apply elem_of_nil in Hf. destruct Hf.
Defined.

(** ** GetFeature *)

(** C3. [GetFeature] returns [Status::OK] for every point and catalog,
    whatever the response message held on entry; the feature returned has
    the name [GetFeatureName] finds for the point, which is empty when no
    catalog entry is at the point, and its location is the point itself. *)
Theorem GetFeature_always_OK (feature_list_ : list Feature) (point : Point)
    (feature : Feature) :
  let (status, response) := GetFeature feature_list_ point feature in
  status = Status_OK
  /\ error_code status = OK
  /\ name response = GetFeatureName point feature_list_
  /\ location response = point
  /\ ((forall f, f ∈ feature_list_ -> location f <> point) ->
      response = {| name := ""; location := point |}).
Proof.
  unfold GetFeature, CopyFrom_location, set_name. cbn.
  repeat split.
  intros Habsent. rewrite (GetFeatureName_absent _ _ Habsent). reflexivity.
Qed.

Lemma GetFeature_always_OK_witness :
  let p := {| latitude := 407838351; longitude := -746143763 |} in
  let q := {| latitude := 1; longitude := 2 |} in
  let catalog := [ {| name := "Patriots Path"; location := p |} ] in
  GetFeature catalog p Feature_default =
    (Status_OK, {| name := "Patriots Path"; location := p |})
  /\ GetFeature catalog q Feature_default =
    (Status_OK, {| name := ""; location := q |}).
Proof.
  intros p q catalog. split.
  - pose proof (GetFeature_always_OK catalog p Feature_default) as H.
    destruct (GetFeature catalog p Feature_default) as [status [n l]].
    destruct H as (-> & _ & Hn & Hl & _). cbn in Hn, Hl. subst. reflexivity.
  - pose proof (GetFeature_always_OK catalog q Feature_default) as H.
    destruct (GetFeature catalog q Feature_default) as [status response].
    destruct H as (-> & _ & _ & _ & H). rewrite H; [reflexivity|].
    intros f Hf. apply list_elem_of_singleton in Hf. subst f. discriminate.
Defined.

(** ** ListFeatures *)

Lemma inside_spec (b : Bounds) (f : Feature) :
  inside b f = true <-> in_box b f.
Proof.
  unfold inside, in_box. rewrite !andb_true_iff.
  rewrite !Z.geb_le, !Z.leb_le. tauto.
Qed.

Lemma ListFeatures_loop_filter (b : Bounds) (feature_list writer : list Feature) :
  ListFeatures_loop b feature_list writer =
    writer ++ filter (in_box b) feature_list.
Proof.
  revert writer. induction feature_list as [|f rest IH]; intros writer; simpl.
  - rewrite app_nil_r. reflexivity.
  - rewrite IH. rewrite filter_cons.
    destruct (decide (in_box b f)) as [Hin|Hout].
    + apply inside_spec in Hin. rewrite Hin.
      rewrite <- app_assoc. reflexivity.
    + destruct (inside b f) eqn:E; [|reflexivity].
      apply inside_spec in E. contradiction.
Qed.

Lemma normalize_swap (a b : Point) :
  normalize {| lo := a; hi := b |} = normalize {| lo := b; hi := a |}.
Proof.
  unfold normalize; simpl.
  rewrite (Z.min_comm (longitude a)), (Z.max_comm (longitude a)).
  rewrite (Z.min_comm (latitude a)), (Z.max_comm (latitude a)).
  reflexivity.
Qed.

Lemma normalize_ordered (r : Rectangle) :
  left_bound (normalize r) <= right_bound (normalize r) /\
  bottom_bound (normalize r) <= top_bound (normalize r).
Proof. unfold normalize; simpl. lia. Qed.

(** C4. Swapping the two corners of the rectangle changes neither the
    normalized bounds nor what [ListFeatures] writes, and normalizing the
    rectangle spanned by normalized bounds returns the same bounds. *)
Theorem ListFeatures_corner_order (feature_list_ : list Feature)
    (a b : Point) (writer : list Feature) :
  ListFeatures feature_list_ {| lo := a; hi := b |} writer =
    ListFeatures feature_list_ {| lo := b; hi := a |} writer
  /\ normalize {| lo := a; hi := b |} = normalize {| lo := b; hi := a |}
  /\ normalize (Bounds_to_Rectangle (normalize {| lo := a; hi := b |})) =
       normalize {| lo := a; hi := b |}.
Proof.
  split; [|split].
  - unfold ListFeatures. rewrite (normalize_swap a b). reflexivity.
  - apply normalize_swap.
  - pose proof (normalize_ordered {| lo := a; hi := b |}) as [Hx Hy].
    destruct (normalize {| lo := a; hi := b |}) as [l r t bo].
    unfold normalize, Bounds_to_Rectangle; simpl in *.
    f_equal; lia.
Qed.

(** C5. [ListFeatures] returns [Status::OK] and appends to the response
    stream exactly the catalog entries whose longitude lies between the
    left and right bounds and whose latitude lies between the bottom and
    top bounds, all four inclusive: each such entry once, in catalog
    order.  The bounds are the smaller and the larger coordinate of the two
    corners on each axis. *)
Theorem ListFeatures_in_box (feature_list_ : list Feature)
    (rectangle : Rectangle) (writer : list Feature) :
  ListFeatures feature_list_ rectangle writer =
    (Status_OK, writer ++ filter (in_box (normalize rectangle)) feature_list_)
  /\ (forall f,
        f ∈ filter (in_box (normalize rectangle)) feature_list_ <->
        f ∈ feature_list_ /\
        Z.min (longitude (lo rectangle)) (longitude (hi rectangle))
          <= longitude (location f)
          <= Z.max (longitude (lo rectangle)) (longitude (hi rectangle)) /\
        Z.min (latitude (lo rectangle)) (latitude (hi rectangle))
          <= latitude (location f)
          <= Z.max (latitude (lo rectangle)) (latitude (hi rectangle)))
  /\ filter (in_box (normalize rectangle)) feature_list_ `sublist_of`
       feature_list_.
Proof.
  split; [|split].
  - unfold ListFeatures. rewrite ListFeatures_loop_filter. reflexivity.
  - intros f. rewrite list_elem_of_filter. unfold in_box, normalize; simpl.
    tauto.
  - apply sublist_filter.
Qed.

(** ** Machine integers *)

Lemma wrap_int_id (z : Z) : - 2 ^ 31 <= z < 2 ^ 31 -> wrap_int z = z.
Proof.
  intros H. unfold wrap_int. rewrite Z.mod_small by lia. lia.
Qed.

(** ** RecordRoute *)

Section RecordRoute_properties.

Variable GetDistance : Point -> Point -> float.
Variable feature_list_ : list Feature.

Local Abbreviation body := (RecordRoute_body GetDistance feature_list_).
Local Abbreviation loop := (RecordRoute_loop GetDistance feature_list_).

Lemma RecordRoute_loop_cons point reader st :
  loop (point :: reader) st = loop reader (body st point).
Proof. reflexivity. Qed.

(** The counter as the machine keeps it: the number of points read, in
    32-bit two's complement. *)
Lemma RecordRoute_loop_point_count reader st :
  l_point_count (loop reader st) =
    match reader with
    | [] => l_point_count st
    | _ => wrap_int (l_point_count st + Z.of_nat (length reader))
    end.
Proof.
  revert st. induction reader as [|p rest IH]; intros st; [reflexivity|].
  rewrite RecordRoute_loop_cons, IH.
  destruct rest as [|q rest'].
  - reflexivity.
  - cbn [l_point_count body RecordRoute_body].
    set (n := Z.of_nat (length (q :: rest'))).
    replace (Z.of_nat (length (p :: q :: rest'))) with (n + 1)
      by (unfold n; cbn [length]; lia).
    clearbody n. unfold wrap_int. f_equal.
    replace ((l_point_count st + 1 + 2 ^ 31) mod 2 ^ 32 - 2 ^ 31 + n + 2 ^ 31)
      with ((l_point_count st + 1 + 2 ^ 31) mod 2 ^ 32 + n) by lia.
    rewrite Z.add_mod_idemp_l by lia. f_equal. lia.
Qed.

Lemma named_points_cons point reader :
  named_points feature_list_ (point :: reader) =
    if string_empty (GetFeatureName point feature_list_)
    then named_points feature_list_ reader
    else point :: named_points feature_list_ reader.
Proof.
  unfold named_points. rewrite filter_cons.
  destruct (decide (GetFeatureName point feature_list_ <> "")) as [Hne|He].
  - destruct (string_empty _) eqn:E; [|reflexivity].
    apply string_empty_spec in E. contradiction.
  - destruct (string_empty _) eqn:E; [reflexivity|].
    exfalso. apply He. intros Hs. apply string_empty_spec in Hs. congruence.
Qed.

(** The loop invariant, for routes short enough for the counters. *)
Lemma RecordRoute_loop_spec reader st :
  0 <= l_feature_count st <= l_point_count st ->
  l_point_count st + Z.of_nat (length reader) < 2 ^ 31 ->
  let st' := loop reader st in
  l_point_count st' = l_point_count st + Z.of_nat (length reader)
  /\ l_feature_count st' =
       l_feature_count st + Z.of_nat (length (named_points feature_list_ reader))
  /\ (1 <= l_point_count st ->
      l_distance st' =
        fold_left float_add (hops GetDistance (l_previous st :: reader))
          (l_distance st)).
Proof.
  revert st. induction reader as [|p rest IH]; intros st Hf Hn.
  - cbn. repeat split; lia.
  - cbn [length] in Hn. rewrite Nat2Z.inj_succ in Hn.
    intros st'. unfold st'. clear st'. rewrite RecordRoute_loop_cons.
    assert (Hpc : l_point_count (body st p) = l_point_count st + 1).
    { cbn. apply wrap_int_id. lia. }
    assert (Hfc : l_feature_count (body st p) =
                  l_feature_count st +
                  (if string_empty (GetFeatureName p feature_list_) then 0 else 1)).
    { cbn. destruct (string_empty _); cbn; [lia|]. apply wrap_int_id. lia. }
    destruct (IH (body st p)) as (H1 & H2 & H3).
    { rewrite Hpc, Hfc. destruct (string_empty _); lia. }
    { rewrite Hpc. lia. }
    rewrite H1, H2, Hpc, Hfc, named_points_cons. cbn [length].
    split; [lia|]. split.
    { destruct (string_empty _); cbn [length]; lia. }
    intros Hone. rewrite H3 by lia.
    assert (Hd : l_distance (body st p) =
                 float_add (l_distance st) (GetDistance (l_previous st) p)).
    { unfold RecordRoute_body. cbn [l_distance].
      rewrite wrap_int_id by lia.
      destruct (Z.eqb_spec (l_point_count st + 1) 1); [lia|reflexivity]. }
    rewrite Hd. destruct rest; reflexivity.
Qed.

(** From the initial locals the first point adds no distance. *)
Lemma RecordRoute_loop_init reader :
  Z.of_nat (length reader) < 2 ^ 31 ->
  let st := loop reader RecordRoute_init in
  l_point_count st = Z.of_nat (length reader)
  /\ l_feature_count st = Z.of_nat (length (named_points feature_list_ reader))
  /\ l_distance st = route_length GetDistance reader.
Proof.
  intros Hn. destruct reader as [|p rest].
  - cbn. repeat split.
  - intros st. unfold st. clear st. rewrite RecordRoute_loop_cons.
    cbn [length] in Hn. rewrite Nat2Z.inj_succ in Hn.
    set (st1 := body RecordRoute_init p).
    assert (Hpc : l_point_count st1 = 1) by reflexivity.
    assert (Hfc : l_feature_count st1 =
                  if string_empty (GetFeatureName p feature_list_) then 0 else 1).
    { unfold st1. cbn. destruct (string_empty _); reflexivity. }
    destruct (RecordRoute_loop_spec rest st1) as (H1 & H2 & H3).
    { rewrite Hpc, Hfc. destruct (string_empty _); lia. }
    { rewrite Hpc. lia. }
    rewrite H1, H2, H3, Hpc, Hfc, named_points_cons by lia.
    cbn [length]. split; [lia|]. split.
    { destruct (string_empty _); cbn [length]; lia. }
    reflexivity.
Qed.

End RecordRoute_properties.

(** C2, as the code has it.  For a stream of fewer than 2^31 points
    [RecordRoute] returns [Status::OK] and one summary: [point_count] is the
    number of points read, [feature_count] the number of points for which
    [GetFeatureName] is not empty, [distance] comes from the [float] sum,
    accumulated in reading order from 0.0 and rounded at every addition, of
    [GetDistance] between each point and its predecessor, the first point
    adding nothing: the sum is truncated to a [long], and the [long] is
    narrowed to the 32 bits of the field.  [elapsed_time] is the whole
    seconds between the two clock readings, narrowed likewise.  A stream
    of one point gives [point_count = 1] and [distance = 0]; the empty
    stream gives zero counts and distance. *)
Theorem RecordRoute_summary (GetDistance : Point -> Point -> float)
    (feature_list_ : list Feature) (start_time end_time : Z)
    (reader : list Point) (summary : RouteSummary) :
  Z.of_nat (length reader) < 2 ^ 31 ->
  RecordRoute GetDistance feature_list_ start_time end_time reader summary =
    (Status_OK,
     {| point_count := Z.of_nat (length reader);
        feature_count := Z.of_nat (length (named_points feature_list_ reader));
        distance := wrap_int (float_to_long (route_length GetDistance reader));
        elapsed_time :=
          wrap_int (duration_cast_seconds (end_time - start_time)) |})
  /\ (forall p, reader = [p] ->
        point_count (RecordRoute GetDistance feature_list_ start_time end_time
                       reader summary).2 = 1
        /\ distance (RecordRoute GetDistance feature_list_ start_time end_time
                       reader summary).2 = 0)
  /\ (reader = [] ->
        point_count (RecordRoute GetDistance feature_list_ start_time end_time
                       reader summary).2 = 0
        /\ feature_count (RecordRoute GetDistance feature_list_ start_time
                            end_time reader summary).2 = 0
        /\ distance (RecordRoute GetDistance feature_list_ start_time end_time
                       reader summary).2 = 0).
Proof.
  intros Hn. split; [|split].
  - unfold RecordRoute.
    destruct (RecordRoute_loop_init GetDistance feature_list_ reader Hn)
      as (H1 & H2 & H3).
    rewrite H1, H2, H3. reflexivity.
  - intros p ->. split; reflexivity.
  - intros ->. repeat split.
Qed.

Lemma RecordRoute_summary_witness :
  let p1 := {| latitude := 10; longitude := 0 |} in
  let p2 := {| latitude := 13; longitude := 0 |} in
  let p3 := {| latitude := 20; longitude := 5 |} in
  let catalog := [ {| name := "Patriots Path"; location := p2 |} ] in
  let summary0 :=
    {| point_count := 0; feature_count := 0; distance := 0; elapsed_time := 0 |} in
  Z.of_nat (length [p1; p2; p3]) < 2 ^ 31
  /\ RecordRoute latitude_gap catalog 0 5000000000 [p1; p2; p3] summary0 =
       (Status_OK,
        {| point_count := 3; feature_count := 1; distance := 10;
           elapsed_time := 5 |}).
Proof.
  intros p1 p2 p3 catalog summary0.
  assert (Hn : Z.of_nat (length [p1; p2; p3]) < 2 ^ 31) by (vm_compute; reflexivity).
  split; [exact Hn|].
  exact (proj1 (RecordRoute_summary latitude_gap catalog 0 5000000000
                  [p1; p2; p3] summary0 Hn)).
Defined.

(** C2 as stated fails in three ways.  Fed 2^31 points, the [int] counter
    has wrapped and the summary reports a negative [point_count].  On
    sixteen points going to and fro between antipodes the [float] running
    sum has lost the low bits of the hops: the summary reports 300226304
    where the fifteen hops add up to 300226320.  On a hundred and ten such
    points the sum has passed 2^31 and the 32-bit [distance] field reports
    a negative number.  The hop is what the last line of [GetDistance]
    gives for [c] the [float] nearest to pi. *)
Lemma RecordRoute_summary_differs :
  let long_reader := replicate (Z.to_nat (2 ^ 31)) Point_default in
  let summary0 :=
    {| point_count := 0; feature_count := 0; distance := 0; elapsed_time := 0 |} in
  let RecordRoute_distance reader :=
    distance (RecordRoute antipodal_distance [] 0 0 reader summary0).2 in
  (Z.of_nat (length long_reader) = 2147483648
   /\ forall GetDistance feature_list_ start_time end_time summary,
        point_count (RecordRoute GetDistance feature_list_ start_time end_time
                       long_reader summary).2 = -2147483648)
  /\ (RecordRoute_distance (to_and_fro 16 true) = 300226304
      /\ exact_distance (hops antipodal_distance (to_and_fro 16 true)) =
           300226320)
  /\ (RecordRoute_distance (to_and_fro 110 true) = -2113321216
      /\ float_to_long (route_length antipodal_distance (to_and_fro 110 true)) =
           2181646080
      /\ exact_distance (hops antipodal_distance (to_and_fro 110 true)) =
           2181644592)
  /\ float_mul (int_to_float 6371000) pi_float = half_circumference.
Proof.
  intros reader summary0 RecordRoute_distance.
  assert (Hlen : Z.of_nat (length reader) = 2147483648).
  { unfold reader. rewrite length_replicate. rewrite Z2Nat.id by lia. reflexivity. }
  split; [split; [exact Hlen|]|].
  - intros GetDistance feature_list_ start_time end_time summary.
    unfold RecordRoute. cbn [snd point_count].
    rewrite RecordRoute_loop_point_count.
    destruct reader as [|p rest] eqn:E.
    + cbn in Hlen. discriminate.
    + rewrite Hlen. reflexivity.
  - clear. repeat split; vm_compute; reflexivity.
Qed.

(** ** A catalog entry without a name *)

Lemma GetFeatureName_removed point feature_list :
  GetFeatureName point
    (filter (fun g => location g <> point) feature_list) = "".
Proof.
  apply GetFeatureName_absent. intros g Hg.
  apply list_elem_of_filter in Hg. tauto.
Qed.

(** C10. When the first catalog entry at [point] has an empty name,
    [GetFeatureName] returns the empty string, as it does on the catalog
    with every entry at [point] removed; [GetFeature] answers with the same
    empty-named feature on both catalogs, and an iteration of [RecordRoute]
    on [point] leaves [feature_count] as it was, so that a route made of
    this point alone reports no feature. *)
Theorem unnamed_entry_reads_as_absent (GetDistance : Point -> Point -> float)
    (feature_list_ pre post : list Feature) (f feature : Feature)
    (point : Point) (st : RouteLocals)
    (start_time end_time : Z) (summary : RouteSummary) :
  feature_list_ = pre ++ f :: post ->
  (forall g, g ∈ pre -> location g <> point) ->
  location f = point ->
  name f = "" ->
  let removed := filter (fun g => location g <> point) feature_list_ in
  GetFeatureName point feature_list_ = ""
  /\ GetFeatureName point feature_list_ = GetFeatureName point removed
  /\ GetFeature feature_list_ point feature =
       (Status_OK, {| name := ""; location := point |})
  /\ GetFeature feature_list_ point feature = GetFeature removed point feature
  /\ l_feature_count (RecordRoute_body GetDistance feature_list_ st point) =
       l_feature_count st
  /\ feature_count (RecordRoute GetDistance feature_list_ start_time end_time
                      [point] summary).2 = 0.
Proof.
  intros -> Hpre Hloc Hname removed.
  assert (Hempty : GetFeatureName point (pre ++ f :: post) = "").
  { rewrite GetFeatureName_skip by exact Hpre.
    rewrite GetFeatureName_cons_eq by exact Hloc. exact Hname. }
  assert (Hrem : GetFeatureName point removed = "")
    by apply GetFeatureName_removed.
  split; [exact Hempty|]. split; [congruence|].
  unfold GetFeature, set_name, CopyFrom_location. cbn [name location].
  split; [rewrite Hempty; reflexivity|].
  split; [rewrite Hempty, Hrem; reflexivity|].
  unfold RecordRoute, RecordRoute_loop, RecordRoute_body.
  cbn [fold_left l_feature_count snd feature_count RecordRoute_init].
  rewrite Hempty. split; reflexivity.
Qed.

Lemma unnamed_entry_reads_as_absent_witness :
  let p := {| latitude := 407838351; longitude := -746143763 |} in
  let q := {| latitude := 1; longitude := 2 |} in
  let catalog :=
    [ {| name := "Berkshire Valley"; location := q |};
      {| name := ""; location := p |};
      {| name := "Patriots Path"; location := p |} ] in
  GetFeatureName p catalog = ""
  /\ GetFeature catalog p Feature_default =
       (Status_OK, {| name := ""; location := p |})
  /\ GetFeature catalog p Feature_default =
       GetFeature [ {| name := "Berkshire Valley"; location := q |} ] p
         Feature_default
  /\ feature_count (RecordRoute latitude_gap catalog 0 0 [p]
                      {| point_count := 0; feature_count := 0; distance := 0;
                         elapsed_time := 0 |}).2 = 0.
Proof.
  intros p q catalog.
  destruct (unnamed_entry_reads_as_absent latitude_gap catalog
              [ {| name := "Berkshire Valley"; location := q |} ]
              [ {| name := "Patriots Path"; location := p |} ]
              {| name := ""; location := p |} Feature_default p
              (RecordRoute_init) 0 0
              {| point_count := 0; feature_count := 0; distance := 0;
                 elapsed_time := 0 |})
    as (H1 & _ & H3 & H4 & _ & H6).
  - reflexivity.
  - intros g Hg. apply list_elem_of_singleton in Hg. subst g. discriminate.
  - reflexivity.
  - reflexivity.
  - repeat split; assumption.
Defined.

(** ** RouteChat *)

(** A step of [s] leaves the other sessions alone. *)
Lemma RouteChat_step_frame s t st st' :
  RouteChat_step s st = Some st' -> t <> s ->
  sessions st' !! t = sessions st !! t.
Proof.
  intros H Hne. step_cases H; cbn [sessions];
    rewrite lookup_insert_ne by congruence; reflexivity.
Qed.

(** What a step does to the stored notes: nothing, unless the session is
    at the end of its scan, where it appends the note it read. *)
Lemma RouteChat_step_log s st st' :
  RouteChat_step s st = Some st' ->
  received_notes_ st' = received_notes_ st
  \/ exists sess note i,
       sessions st !! s = Some sess /\ position sess = AtScan note i /\
       received_notes_ st !! i = None /\
       received_notes_ st' = received_notes_ st ++ [note].
Proof.
  intros H. step_cases H; cbn [received_notes_]; eauto 10.
Qed.

Lemma run_cons s schedule st :
  run (s :: schedule) st = run schedule (default st (RouteChat_step s st)).
Proof. reflexivity. Qed.

Lemma run_app schedule1 schedule2 st :
  run (schedule1 ++ schedule2) st = run schedule2 (run schedule1 st).
Proof.
  revert st. induction schedule1 as [|s rest IH]; intros st; [reflexivity|].
  cbn [app]. rewrite !run_cons. apply IH.
Qed.

Lemma RouteChat_step_prefix s st :
  received_notes_ st `prefix_of`
    received_notes_ (default st (RouteChat_step s st)).
Proof.
  destruct (RouteChat_step s st) as [st'|] eqn:H; simpl; [|reflexivity].
  destruct (RouteChat_step_log _ _ _ H) as [->|(? & note & ? & _ & _ & _ & ->)].
  - reflexivity.
  - apply prefix_app_r. reflexivity.
Qed.

Lemma run_prefix schedule st :
  received_notes_ st `prefix_of` received_notes_ (run schedule st).
Proof.
  revert st. induction schedule as [|s rest IH]; intros st; [reflexivity|].
  rewrite run_cons. etransitivity; [apply RouteChat_step_prefix|apply IH].
Qed.

(** C9. The stored notes only grow at the end.  A statement of a session
    either leaves [received_notes_] as it is or appends one note to it; so
    along every interleaving the earlier sequence is a prefix of the later
    one: every prefix stays a prefix, every stored note keeps its index,
    and the length never decreases. *)
Theorem received_notes_append_only (schedule : list session_id)
    (s : session_id) (st : ChatState) :
  (let st' := default st (RouteChat_step s st) in
   received_notes_ st' = received_notes_ st
   \/ exists note, received_notes_ st' = received_notes_ st ++ [note])
  /\ received_notes_ st `prefix_of` received_notes_ (run schedule st)
  /\ (forall log, log `prefix_of` received_notes_ st ->
        log `prefix_of` received_notes_ (run schedule st))
  /\ (forall i note, received_notes_ st !! i = Some note ->
        received_notes_ (run schedule st) !! i = Some note)
  /\ (length (received_notes_ st) <= length (received_notes_ (run schedule st)))%nat.
Proof.
  pose proof (run_prefix schedule st) as Hrun.
  split; [|split; [exact Hrun|split; [|split]]].
  - destruct (RouteChat_step s st) as [st'|] eqn:H; simpl; [|left; reflexivity].
    destruct (RouteChat_step_log _ _ _ H) as [->|(? & note & ? & _ & _ & _ & ->)];
      eauto.
  - intros log Hlog. etransitivity; eassumption.
  - intros i note Hi. eapply prefix_lookup_Some; eassumption.
  - apply prefix_length, Hrun.
Qed.

(** *** Mutual exclusion *)

Lemma lock_inv_step s st st' :
  lock_inv st -> RouteChat_step s st = Some st' -> lock_inv st'.
Proof.
  intros Hinv H t sess' Hlook Hown.
  destruct (decide (t = s)) as [->|Hne].
  - (* the session that moved *)
    step_cases H; cbn [sessions mu_] in *;
      rewrite lookup_insert_eq in Hlook; injection Hlook as <-;
      cbn in Hown; try discriminate Hown;
      try reflexivity;
      (eapply Hinv; [eassumption|use_position; reflexivity]).
  - (* a session that did not *)
    rewrite (RouteChat_step_frame _ _ _ _ H Hne) in Hlook.
    pose proof (Hinv t sess' Hlook Hown) as Hmu.
    step_cases H; cbn [mu_]; try exact Hmu; try congruence.
    (* [s] released the lock, which it owned *)
    assert (mu_ st = Some s) by (eapply Hinv; [eassumption|use_position; reflexivity]).
    congruence.
Qed.

Lemma lock_inv_run schedule st : lock_inv st -> lock_inv (run schedule st).
Proof.
  revert st. induction schedule as [|s rest IH]; intros st Hinv; [exact Hinv|].
  rewrite run_cons. apply IH.
  destruct (RouteChat_step s st) as [st'|] eqn:H; simpl; [|exact Hinv].
  eapply lock_inv_step; eassumption.
Qed.

Lemma lock_inv_init streams : lock_inv (ChatState_init streams).
Proof.
  intros s sess Hlook Hown. cbn in Hlook.
  rewrite lookup_fmap in Hlook.
  destruct (streams !! s); [|discriminate].
  injection Hlook as <-. discriminate.
Qed.

(** Mutual exclusion holds in every state the service reaches. *)
Lemma lock_inv_reachable streams schedule :
  lock_inv (run schedule (ChatState_init streams)).
Proof. apply lock_inv_run, lock_inv_init. Qed.

(** While [s] is inside the critical section no other session changes
    [received_notes_]. *)
Lemma RouteChat_step_excluded s t st st' sess :
  lock_inv st ->
  sessions st !! s = Some sess ->
  owns_lock (position sess) = true ->
  t <> s ->
  RouteChat_step t st = Some st' ->
  received_notes_ st' = received_notes_ st.
Proof.
  intros Hinv Hs Hown Hne H.
  destruct (RouteChat_step_log _ _ _ H) as [E|(sess_t & n & i & Ht & Hp & _)];
    [exact E|].
  assert (mu_ st = Some s) by (eapply Hinv; eassumption).
  assert (mu_ st = Some t) by (eapply Hinv; [eassumption|rewrite Hp; reflexivity]).
  congruence.
Qed.

(** *** One pass of the loop body *)

Lemma notes_at_snoc note log n :
  notes_at note (log ++ [n]) =
    notes_at note log ++
      (if same_point (note_location n) (note_location note) then [n] else []).
Proof.
  unfold notes_at. rewrite filter_app, filter_cons, filter_nil.
  destruct (decide (note_location n = note_location note)) as [E|E].
  - apply same_point_spec in E. rewrite E. reflexivity.
  - apply same_point_false in E. rewrite E. reflexivity.
Qed.

Lemma pass_inv_start st s sess note :
  lock_inv st ->
  sessions st !! s = Some sess ->
  position sess = AtScan note 0 ->
  pass_inv (received_notes_ st) s note (inbound sess) (outbound sess) st.
Proof.
  intros Hinv Hs Hp. split; [exact Hinv|].
  exists sess. split; [exact Hs|]. split; [reflexivity|].
  intros _. rewrite Hp. rewrite take_0. cbn. rewrite app_nil_r. auto.
Qed.

Lemma pass_inv_step log s note inb out t st :
  pass_inv log s note inb out st ->
  pass_inv log s note inb out (default st (RouteChat_step t st)).
Proof.
  intros (Hinv & sess & Hs & Hlen & Hpos).
  destruct (RouteChat_step t st) as [st'|] eqn:H; simpl;
    [|split; [exact Hinv|exists sess; auto]].
  split; [eapply lock_inv_step; eassumption|].
  destruct (decide (t = s)) as [->|Hne].
  - (* [s] itself moves *)
    unfold RouteChat_step in H. rewrite Hs in H.
    destruct (position sess) as [|n|n i| |status] eqn:Hp.
    + (* Read *)
      destruct (inbound sess) as [|n rest] eqn:Hin; injection H as <-;
        eexists; (split; [apply lookup_insert_eq|]); cbn.
      * split; [lia|]. auto.
      * split; [cbn in Hlen; lia|]. intros ->. cbn in Hlen. lia.
    + (* lock *)
      destruct (mu_ st); [discriminate|]. injection H as <-.
      eexists; (split; [apply lookup_insert_eq|]); cbn.
      split; [exact Hlen|]. intros E. destruct (Hpos E).
    + (* scan *)
      destruct (received_notes_ st !! i) as [m|] eqn:Hi; injection H as <-;
        eexists; (split; [apply lookup_insert_eq|]); cbn;
        (split; [exact Hlen|]); intros E;
        destruct (Hpos E) as (-> & Hlog & Hout); rewrite Hlog in Hi.
      * split; [reflexivity|]. split; [exact Hlog|].
        rewrite (take_S_r _ _ _ Hi), notes_at_snoc, Hout.
        destruct (same_point _ _); [|rewrite app_nil_r; reflexivity].
        rewrite app_assoc. reflexivity.
      * split; [rewrite Hlog; reflexivity|].
        apply lookup_ge_None in Hi.
        rewrite take_ge in Hout by exact Hi. exact Hout.
    + (* unlock *)
      injection H as <-.
      eexists; (split; [apply lookup_insert_eq|]); cbn.
      split; [exact Hlen|]. intros E. destruct (Hpos E) as (Hlog & Hout).
      split; [rewrite Hlog; reflexivity|exact Hout].
    + discriminate.
  - (* another session moves *)
    exists sess. rewrite (RouteChat_step_frame t s st st' H) by congruence.
    split; [exact Hs|]. split; [exact Hlen|].
    intros E. specialize (Hpos E).
    pose proof (RouteChat_step_prefix t st) as Hpre. rewrite H in Hpre.
    simpl in Hpre.
    destruct (position sess) as [|n|n i| |status] eqn:Hp; try exact Hpos.
    + destruct Hpos as (Hlog & Hout). split; [|exact Hout].
      etransitivity; eassumption.
    + destruct Hpos as (-> & Hlog & Hout).
      rewrite (RouteChat_step_excluded s t st st' sess) by
        (try eassumption; rewrite Hp; reflexivity). auto.
    + destruct Hpos as (Hlog & Hout).
      rewrite (RouteChat_step_excluded s t st st' sess) by
        (try eassumption; rewrite Hp; reflexivity). auto.
Qed.

Lemma pass_inv_run log s note inb out schedule st :
  pass_inv log s note inb out st ->
  pass_inv log s note inb out (run schedule st).
Proof.
  revert st. induction schedule as [|t rest IH]; intros st H; [exact H|].
  rewrite run_cons. apply IH, pass_inv_step, H.
Qed.

(** Scheduled alone, [s] walks the stored notes one at a time. *)
Lemma RouteChat_scan_advances s note k :
  forall st sess i,
    sessions st !! s = Some sess ->
    position sess = AtScan note i ->
    (i + k <= length (received_notes_ st))%nat ->
    exists sess',
      sessions (run (replicate k s) st) !! s = Some sess' /\
      position sess' = AtScan note (i + k) /\
      inbound sess' = inbound sess /\
      received_notes_ (run (replicate k s) st) = received_notes_ st.
Proof.
  induction k as [|k IH]; intros st sess i Hs Hp Hlen.
  - exists sess. rewrite Nat.add_0_r. auto.
  - rewrite replicate_S, run_cons.
    destruct (lookup_lt_is_Some_2 (received_notes_ st) i ltac:(lia)) as [m Hm].
    unfold RouteChat_step. rewrite Hs, Hp, Hm. simpl.
    match goal with |- context [run _ ?st1] => set (st' := st1) end.
    destruct (IH st' _ (S i) (lookup_insert_eq _ _ _) eq_refl)
      as (sess' & H1 & H2 & H3 & H4).
    { cbn. lia. }
    cbn in H3, H4. rewrite Nat.add_succ_comm in H2.
    exists sess'. repeat split; assumption.
Qed.

(** The pass terminates: after as many steps as there are stored notes,
    and one more, [s] has appended its note. *)
Lemma RouteChat_pass_completes s note st sess :
  sessions st !! s = Some sess ->
  position sess = AtScan note 0 ->
  exists sess',
    sessions (run (replicate (S (length (received_notes_ st))) s) st) !! s =
      Some sess' /\
    position sess' = AtUnlock /\
    inbound sess' = inbound sess.
Proof.
  intros Hs Hp. rewrite replicate_S_end, run_app.
  destruct (RouteChat_scan_advances s note (length (received_notes_ st))
              st sess 0%nat Hs Hp ltac:(lia)) as (sess1 & H1 & H2 & H3 & H4).
  set (st1 := run (replicate _ s) st) in *. cbn [run].
  unfold RouteChat_step. rewrite H1, H2. cbn [Nat.add].
  rewrite lookup_ge_None_2 by (rewrite H4; lia). simpl.
  eexists. split; [apply lookup_insert_eq|]. cbn. auto.
Qed.

(** C1. Take any state in which session [s] has just locked [mu_] for
    the note it read, with [log] stored.  However the sessions are
    interleaved from there, once [s] has finished the pass (and as long as
    it has not read its next note) it has written to its own stream
    exactly the notes of [log] at the location of [note], in append order,
    and [note] was appended right after [log].  The pass does finish.  What
    is written is taken from [log] alone: the entry appended for [note],
    which is at the same location, is not part of it.  No statement of [s]
    touches the stream of another session. *)
Theorem RouteChat_replay (st : ChatState) (s : session_id) (sess : Session)
    (note : RouteNote) :
  lock_inv st ->
  sessions st !! s = Some sess ->
  position sess = AtScan note 0 ->
  let log := received_notes_ st in
  (forall schedule sess',
      sessions (run schedule st) !! s = Some sess' ->
      inbound sess' = inbound sess ->
      position sess' = AtUnlock \/ position sess' = AtRead ->
      outbound sess' = outbound sess ++ notes_at note log
      /\ (log ++ [note]) `prefix_of` received_notes_ (run schedule st))
  /\ (exists sess',
        sessions (run (replicate (S (length log)) s) st) !! s = Some sess'
        /\ position sess' = AtUnlock
        /\ inbound sess' = inbound sess)
  /\ notes_at note (log ++ [note]) = notes_at note log ++ [note]
  /\ (forall t st1 st2,
        t <> s -> RouteChat_step s st1 = Some st2 ->
        sessions st2 !! t = sessions st1 !! t).
Proof.
  intros Hinv Hs Hp log. split; [|split; [|split]].
  - intros schedule sess' Hs' Hin Hat.
    pose proof (pass_inv_run _ _ _ _ _ schedule _
                  (pass_inv_start st s sess note Hinv Hs Hp))
      as (_ & sess'' & Hs'' & _ & Hpos).
    rewrite Hs' in Hs''. injection Hs'' as <-.
    specialize (Hpos Hin). fold log in Hpos.
    destruct Hat as [E|E]; rewrite E in Hpos; destruct Hpos as (Hlog & Hout).
    + rewrite Hlog. auto.
    + auto.
  - exact (RouteChat_pass_completes s note st sess Hs Hp).
  - rewrite notes_at_snoc.
    assert (E : same_point (note_location note) (note_location note) = true)
      by (apply same_point_spec; reflexivity).
    rewrite E. reflexivity.
  - intros t st1 st2 Hne Hstep. eapply RouteChat_step_frame; eassumption.
Qed.

(** The scenario of the specification: session 1 sends [N1] at a point,
    then session 2 sends [N2] at the same point and [N3] elsewhere. *)
Lemma RouteChat_replay_witness :
  let Q := {| latitude := 407838351; longitude := -746143763 |} in
  let R := {| latitude := 1; longitude := 2 |} in
  let N1 := {| note_location := Q; message := "first" |} in
  let N2 := {| note_location := Q; message := "second" |} in
  let N3 := {| note_location := R; message := "third" |} in
  let streams : gmap session_id (list RouteNote) :=
    {[ 1%nat := [N1]; 2%nat := [N2; N3] ]} in
  let st := run [1; 1; 1; 1; 2; 2]%nat (ChatState_init streams) in
  let st' := run [2; 1; 2; 2]%nat st in
  let st'' := run [2; 2; 2; 2; 2; 2]%nat st' in
  received_notes_ st = [N1]
  /\ sessions st !! 2%nat =
       Some {| position := AtScan N2 0; inbound := [N3]; outbound := [] |}
  /\ received_notes_ st' = [N1; N2]
  /\ sessions st' !! 2%nat =
       Some {| position := AtRead; inbound := [N3]; outbound := [N1] |}
  /\ received_notes_ st'' = [N1; N2; N3]
  /\ sessions st'' !! 2%nat =
       Some {| position := AtRead; inbound := []; outbound := [N1] |}.
Proof.
  intros Q R N1 N2 N3 streams st st' st''.
  assert (Hinv : lock_inv st) by apply lock_inv_reachable.
  assert (Hs : sessions st !! 2%nat =
               Some {| position := AtScan N2 0; inbound := [N3]; outbound := [] |})
    by (vm_compute; reflexivity).
  assert (Hs' : sessions st' !! 2%nat =
                Some {| position := AtRead; inbound := [N3]; outbound := [N1] |})
    by (vm_compute; reflexivity).
  destruct (RouteChat_replay st 2%nat _ N2 Hinv Hs eq_refl) as (Hpass & _).
  destruct (Hpass [2; 1; 2; 2]%nat _ Hs' eq_refl (or_intror eq_refl))
    as (Hout & Hlog).
  repeat split; try assumption; vm_compute; reflexivity.
Defined.

(** * Further properties of the handlers *)

(** ** Catalog lookups *)

Lemma GetFeatureName_sound point feature_list :
  GetFeatureName point feature_list = ""
  \/ exists f, f ∈ feature_list /\ location f = point /\
               name f = GetFeatureName point feature_list.
Proof.
  induction feature_list as [|g rest IH]; [left; reflexivity|].
  destruct (decide (location g = point)) as [E|E].
  - right. exists g. rewrite GetFeatureName_cons_eq by exact E.
    split; [left|]; auto.
  - rewrite GetFeatureName_cons_ne by exact E.
    destruct IH as [IH|(f & Hf & Hl & Hn)]; [left; exact IH|].
    right. exists f. split; [right; exact Hf|]. auto.
Qed.

(** X1. [GetFeatureName] never invents a name: its result is either the
    empty string or the name of an entry of the catalog located at the
    point; and it is not empty exactly when the first entry at the point
    has a name. *)
Theorem GetFeatureName_names_an_entry (point : Point)
    (feature_list : list Feature) :
  (GetFeatureName point feature_list = ""
   \/ exists f, f ∈ feature_list /\ location f = point /\
                name f = GetFeatureName point feature_list)
  /\ (GetFeatureName point feature_list <> "" <->
      exists pre f post,
        feature_list = pre ++ f :: post /\
        (forall g, g ∈ pre -> location g <> point) /\
        location f = point /\ name f <> "").
Proof.
  split; [apply GetFeatureName_sound|]. split.
  - induction feature_list as [|g rest IH]; intros Hne; [contradiction|].
    destruct (decide (location g = point)) as [E|E].
    + rewrite GetFeatureName_cons_eq in Hne by exact E.
      exists [], g, rest. split; [reflexivity|]. split; [|auto].
      intros h Hh. apply elem_of_nil in Hh. destruct Hh.
    + rewrite GetFeatureName_cons_ne in Hne by exact E.
      destruct (IH Hne) as (pre & f & post & -> & Hpre & Hl & Hn).
      exists (g :: pre), f, post. split; [reflexivity|]. split; [|auto].
      intros h Hh. apply elem_of_cons in Hh. destruct Hh as [->|Hh]; auto.
  - intros (pre & f & post & -> & Hpre & Hl & Hn).
    rewrite GetFeatureName_skip by exact Hpre.
    rewrite GetFeatureName_cons_eq by exact Hl. exact Hn.
Qed.

Lemma GetFeatureName_elem f feature_list :
  NoDup (location <$> feature_list) ->
  f ∈ feature_list ->
  GetFeatureName (location f) feature_list = name f.
Proof.
  induction feature_list as [|g rest IH]; intros Hnd Hf.
  - apply elem_of_nil in Hf. destruct Hf.
  - rewrite fmap_cons in Hnd. apply NoDup_cons in Hnd. destruct Hnd as [Hg Hnd].
    apply elem_of_cons in Hf. destruct Hf as [->|Hf].
    + apply GetFeatureName_cons_eq. reflexivity.
    + rewrite GetFeatureName_cons_ne; [apply IH; assumption|].
      intros E. apply Hg. rewrite E. apply list_elem_of_fmap. eauto.
Qed.

(** X2. Looking up what the catalog holds gives it back: when no two
    entries of the catalog share a location, [GetFeature] at the location
    of any entry returns that entry, name and location. *)
Theorem GetFeature_returns_entry (feature_list_ : list Feature)
    (f feature : Feature) :
  NoDup (location <$> feature_list_) ->
  f ∈ feature_list_ ->
  GetFeature feature_list_ (location f) feature = (Status_OK, f).
Proof.
  intros Hnd Hf. unfold GetFeature, set_name, CopyFrom_location.
  cbn [name location]. rewrite (GetFeatureName_elem f _ Hnd Hf).
  destruct f; reflexivity.
Qed.

Lemma GetFeature_returns_entry_witness :
  let f1 := {| name := "Berkshire Valley";
               location := {| latitude := 409146138; longitude := -746188906 |} |} in
  let f2 := {| name := "Patriots Path";
               location := {| latitude := 407838351; longitude := -746143763 |} |} in
  GetFeature [f1; f2] (location f2) Feature_default = (Status_OK, f2).
Proof.
  intros f1 f2. apply GetFeature_returns_entry.
  - apply NoDup_cons. split.
    + intros H. apply list_elem_of_singleton in H. discriminate.
    + apply NoDup_singleton.
  - right. left.
Defined.

Lemma filter_in_box_point (p : Point) (feature_list : list Feature) :
  filter (in_box (normalize {| lo := p; hi := p |})) feature_list =
    filter (fun f => location f = p) feature_list.
Proof.
  apply list_filter_iff. intros f. unfold in_box, normalize; simpl.
  rewrite !Z.min_id, !Z.max_id. destruct f as [n [la lg]], p as [pa pg]; simpl.
  split.
  - intros [H1 H2]. f_equal; lia.
  - intros [= -> ->]. lia.
Qed.

(** X3. A rectangle whose two corners are the same point selects the
    entries located exactly at that point, every one of them, in catalog
    order; the name [GetFeature] gives for the point is the name of the
    first feature [ListFeatures] writes for that rectangle, and is empty
    when it writes none. *)
Theorem ListFeatures_point_rectangle (feature_list_ : list Feature)
    (p : Point) (out : list Feature) (response : Feature) :
  ListFeatures feature_list_ {| lo := p; hi := p |} out =
    (Status_OK, out ++ filter (fun f => location f = p) feature_list_)
  /\ name (GetFeature feature_list_ p response).2 =
       match (ListFeatures feature_list_ {| lo := p; hi := p |} []).2 with
       | f :: _ => name f
       | [] => ""
       end.
Proof.
  unfold ListFeatures. rewrite !ListFeatures_loop_filter, filter_in_box_point.
  split; [reflexivity|]. cbn [snd app].
  unfold GetFeature, set_name, CopyFrom_location. cbn [snd name].
  induction feature_list_ as [|g rest IH]; [reflexivity|].
  rewrite filter_cons. destruct (decide (location g = p)) as [E|E].
  - apply GetFeatureName_cons_eq, E.
  - rewrite GetFeatureName_cons_ne by exact E. exact IH.
Qed.

Lemma filter_sublist_impl {A} (P Q : A -> Prop)
    `{!forall x, Decision (P x)} `{!forall x, Decision (Q x)} (l : list A) :
  (forall x, P x -> Q x) -> filter P l `sublist_of` filter Q l.
Proof.
  intros HPQ. induction l as [|x l IH]; [reflexivity|].
  rewrite !filter_cons.
  destruct (decide (P x)) as [HP|HP].
  - rewrite decide_True by auto. apply sublist_skip, IH.
  - destruct (decide (Q x)); [apply sublist_cons|]; exact IH.
Qed.

(** X4. A smaller rectangle returns fewer features: when the box of one
    rectangle lies within the box of another, what [ListFeatures] writes
    for the first is a subsequence, in the same order, of what it writes
    for the second. *)
Theorem ListFeatures_monotone (feature_list_ : list Feature)
    (inner outer : Rectangle) :
  left_bound (normalize outer) <= left_bound (normalize inner) ->
  right_bound (normalize inner) <= right_bound (normalize outer) ->
  bottom_bound (normalize outer) <= bottom_bound (normalize inner) ->
  top_bound (normalize inner) <= top_bound (normalize outer) ->
  (ListFeatures feature_list_ inner []).2 `sublist_of`
    (ListFeatures feature_list_ outer []).2.
Proof.
  intros Hl Hr Hb Ht. unfold ListFeatures. cbn [snd].
  rewrite !ListFeatures_loop_filter. cbn [app].
  apply filter_sublist_impl. intros f. unfold in_box. lia.
Qed.

Lemma ListFeatures_monotone_witness :
  let a := {| latitude := 0; longitude := 0 |} in
  let b := {| latitude := 10; longitude := 10 |} in
  let c := {| latitude := -5; longitude := 20 |} in
  let d := {| latitude := 10; longitude := 0 |} in
  let catalog :=
    [ {| name := "in both"; location := {| latitude := 3; longitude := 4 |} |};
      {| name := "outer only"; location := {| latitude := -1; longitude := 15 |} |};
      {| name := "in neither"; location := {| latitude := 30; longitude := 0 |} |} ] in
  (ListFeatures catalog {| lo := b; hi := a |} []).2 `sublist_of`
    (ListFeatures catalog {| lo := c; hi := d |} []).2.
Proof.
  intros a b c d catalog.
  apply ListFeatures_monotone; unfold normalize; simpl; lia.
Defined.

Lemma filter_all {A} (P : A -> Prop) `{!forall x, Decision (P x)} (l : list A) :
  (forall x, x ∈ l -> P x) -> filter P l = l.
Proof.
  induction l as [|x l IH]; intros Hall; [reflexivity|].
  rewrite filter_cons, decide_True by (apply Hall; left).
  f_equal. apply IH. intros y Hy. apply Hall. right. exact Hy.
Qed.

Lemma filter_none {A} (P : A -> Prop) `{!forall x, Decision (P x)} (l : list A) :
  (forall x, x ∈ l -> ~ P x) -> filter P l = [].
Proof.
  induction l as [|x l IH]; intros Hall; [reflexivity|].
  rewrite filter_cons, decide_False by (apply Hall; left).
  apply IH. intros y Hy. apply Hall. right. exact Hy.
Qed.

(** X5. A rectangle that covers every entry returns the whole catalog, in
    order, after what was already written; on an empty catalog nothing is
    written. *)
Theorem ListFeatures_whole_catalog (feature_list_ : list Feature)
    (rectangle : Rectangle) (writer : list Feature) :
  (forall f, f ∈ feature_list_ -> in_box (normalize rectangle) f) ->
  ListFeatures feature_list_ rectangle writer =
    (Status_OK, writer ++ feature_list_)
  /\ ListFeatures [] rectangle writer = (Status_OK, writer).
Proof.
  intros Hall. unfold ListFeatures. rewrite ListFeatures_loop_filter.
  rewrite filter_all by exact Hall. split; reflexivity.
Qed.

Lemma ListFeatures_whole_catalog_witness :
  let catalog :=
    [ {| name := "Berkshire Valley";
         location := {| latitude := 409146138; longitude := -746188906 |} |};
      {| name := "";
         location := {| latitude := 407838351; longitude := -746143763 |} |} ] in
  let world :=
    {| lo := {| latitude := -900000000; longitude := -1800000000 |};
       hi := {| latitude := 900000000; longitude := 1800000000 |} |} in
  ListFeatures catalog world [] = (Status_OK, catalog).
Proof.
  intros catalog world.
  assert (Hall : forall f, f ∈ catalog -> in_box (normalize world) f).
  { intros f Hf. unfold catalog in Hf.
    repeat (apply elem_of_cons in Hf; destruct Hf as [->|Hf];
            [unfold in_box, normalize; simpl; lia|]).
    apply elem_of_nil in Hf. destruct Hf. }
  exact (proj1 (ListFeatures_whole_catalog catalog world [] Hall)).
Defined.

(** ** Route summaries *)

Lemma wrap_int_add_l (a b : Z) : wrap_int (wrap_int a + b) = wrap_int (a + b).
Proof.
  unfold wrap_int. f_equal.
  replace ((a + 2 ^ 31) mod 2 ^ 32 - 2 ^ 31 + b + 2 ^ 31)
    with ((a + 2 ^ 31) mod 2 ^ 32 + b) by lia.
  rewrite Z.add_mod_idemp_l by lia. f_equal. lia.
Qed.

Section RecordRoute_more.

Variable GetDistance : Point -> Point -> float.
Variable feature_list_ : list Feature.

Lemma RecordRoute_loop_feature_count reader st :
  l_feature_count (RecordRoute_loop GetDistance feature_list_ reader st) =
    match named_points feature_list_ reader with
    | [] => l_feature_count st
    | named =>
        wrap_int (l_feature_count st + Z.of_nat (length named))
    end.
Proof.
  revert st. induction reader as [|p rest IH]; intros st; [reflexivity|].
  rewrite RecordRoute_loop_cons, IH, named_points_cons.
  unfold RecordRoute_body at 1 2. cbn [l_feature_count].
  destruct (string_empty (GetFeatureName p feature_list_)); cbn [negb];
    [reflexivity|].
  destruct (named_points feature_list_ rest) as [|q named]; cbn [length].
  - f_equal.
  - rewrite wrap_int_add_l. f_equal. lia.
Qed.

Lemma hops_snoc reader p q :
  hops GetDistance (reader ++ [p; q]) =
    hops GetDistance (reader ++ [p]) ++ [GetDistance p q].
Proof.
  induction reader as [|a rest IH]; [reflexivity|].
  destruct rest as [|b rest'].
  - reflexivity.
  - change (hops GetDistance ((a :: b :: rest') ++ [p; q]))
      with (GetDistance a b :: hops GetDistance ((b :: rest') ++ [p; q])).
    rewrite IH. reflexivity.
Qed.

End RecordRoute_more.

Lemma named_points_empty_catalog reader : named_points [] reader = [].
Proof.
  unfold named_points. apply filter_none. intros p _ H. apply H. reflexivity.
Qed.

(** X6. On a stream of any length the two counters of the summary are the
    true counts reduced to 32-bit two's complement: [point_count] is the
    number of points read and [feature_count] the number of named points
    read, both taken through [wrap_int].  With an empty catalog
    [feature_count] is 0 whatever the stream. *)
Theorem RecordRoute_counters_wrap (GetDistance : Point -> Point -> float)
    (feature_list_ : list Feature) (start_time end_time : Z)
    (reader : list Point) (summary : RouteSummary) :
  point_count (RecordRoute GetDistance feature_list_ start_time end_time
                 reader summary).2 = wrap_int (Z.of_nat (length reader))
  /\ feature_count (RecordRoute GetDistance feature_list_ start_time end_time
                      reader summary).2 =
       wrap_int (Z.of_nat (length (named_points feature_list_ reader)))
  /\ feature_count (RecordRoute GetDistance [] start_time end_time
                      reader summary).2 = 0.
Proof.
  unfold RecordRoute. cbn [snd point_count feature_count].
  rewrite RecordRoute_loop_point_count, !RecordRoute_loop_feature_count.
  rewrite named_points_empty_catalog.
  split; [|split].
  - destruct reader; reflexivity.
  - destruct (named_points feature_list_ reader); reflexivity.
  - reflexivity.
Qed.

(** X7. For a stream of fewer than 2^31 points the summary never reports
    more features than points, and neither count is negative. *)
Theorem RecordRoute_feature_count_le (GetDistance : Point -> Point -> float)
    (feature_list_ : list Feature) (start_time end_time : Z)
    (reader : list Point) (summary : RouteSummary) :
  Z.of_nat (length reader) < 2 ^ 31 ->
  0 <= feature_count (RecordRoute GetDistance feature_list_ start_time end_time
                        reader summary).2
    <= point_count (RecordRoute GetDistance feature_list_ start_time end_time
                      reader summary).2.
Proof.
  intros Hn. unfold RecordRoute. cbn [snd point_count feature_count].
  destruct (RecordRoute_loop_init GetDistance feature_list_ reader Hn)
    as (H1 & H2 & _).
  rewrite H1, H2.
  pose proof (length_filter (fun p => GetFeatureName p feature_list_ <> "") reader).
  unfold named_points. lia.
Qed.

Lemma RecordRoute_feature_count_le_witness :
  let p := {| latitude := 407838351; longitude := -746143763 |} in
  let q := {| latitude := 1; longitude := 2 |} in
  let catalog := [ {| name := "Patriots Path"; location := p |} ] in
  let summary0 :=
    {| point_count := 0; feature_count := 0; distance := 0; elapsed_time := 0 |} in
  0 <= feature_count (RecordRoute latitude_gap catalog 0 0 [p; q; p] summary0).2
    <= point_count (RecordRoute latitude_gap catalog 0 0 [p; q; p] summary0).2.
Proof.
  intros p q catalog summary0.
  apply RecordRoute_feature_count_le. vm_compute. reflexivity.
Defined.

(** X8. Extending a route by one point adds one hop: the distance reported
    for a route that ends with [p] and then [q] comes from the [float] sum
    accumulated up to [p] plus [GetDistance p q], the hop from the point
    read just before; that sum is truncated to a [long] and narrowed to
    the 32 bits of the field. *)
Theorem RecordRoute_extend (GetDistance : Point -> Point -> float)
    (feature_list_ : list Feature) (start_time end_time : Z)
    (reader : list Point) (p q : Point) (summary : RouteSummary) :
  Z.of_nat (length (reader ++ [p; q])) < 2 ^ 31 ->
  distance (RecordRoute GetDistance feature_list_ start_time end_time
              (reader ++ [p; q]) summary).2 =
    wrap_int
      (float_to_long
         (float_add (route_length GetDistance (reader ++ [p]))
            (GetDistance p q))).
Proof.
  intros Hn. unfold RecordRoute. cbn [snd distance].
  destruct (RecordRoute_loop_init GetDistance feature_list_ _ Hn)
    as (_ & _ & H3).
  rewrite H3. unfold route_length.
  rewrite hops_snoc, fold_left_app. reflexivity.
Qed.

Lemma RecordRoute_extend_witness :
  let p1 := {| latitude := 10; longitude := 0 |} in
  let p2 := {| latitude := 13; longitude := 0 |} in
  let p3 := {| latitude := 20; longitude := 5 |} in
  let summary0 :=
    {| point_count := 0; feature_count := 0; distance := 0; elapsed_time := 0 |} in
  distance (RecordRoute latitude_gap [] 0 0 ([p1] ++ [p2; p3]) summary0).2 =
    wrap_int
      (float_to_long
         (float_add (route_length latitude_gap ([p1] ++ [p2]))
            (latitude_gap p2 p3))).
Proof.
  intros p1 p2 p3 summary0.
  apply RecordRoute_extend. vm_compute. reflexivity.
Defined.

(** ** Chat sessions *)

Lemma run_invariant (I : ChatState -> Prop) :
  (forall s st st', I st -> RouteChat_step s st = Some st' -> I st') ->
  forall schedule st, I st -> I (run schedule st).
Proof.
  intros Hstep schedule. induction schedule as [|s rest IH]; intros st H;
    [exact H|].
  rewrite run_cons. apply IH.
  destruct (RouteChat_step s st) as [st'|] eqn:E; simpl; [|exact H].
  eapply Hstep; eassumption.
Qed.

(** X9. Mutual exclusion: in every state the service reaches from its
    start, under every interleaving, at most one session is between
    locking [mu_] and releasing it. *)
Theorem RouteChat_mutual_exclusion
    (streams : gmap session_id (list RouteNote)) (schedule : list session_id)
    (s t : session_id) (sess_s sess_t : Session) :
  sessions (run schedule (ChatState_init streams)) !! s = Some sess_s ->
  sessions (run schedule (ChatState_init streams)) !! t = Some sess_t ->
  owns_lock (position sess_s) = true ->
  owns_lock (position sess_t) = true ->
  s = t.
Proof.
  intros Hs Ht Hos Hot.
  pose proof (lock_inv_reachable streams schedule) as Hinv.
  pose proof (Hinv s sess_s Hs Hos) as E1.
  pose proof (Hinv t sess_t Ht Hot) as E2.
  congruence.
Qed.

Lemma RouteChat_mutual_exclusion_witness :
  let N1 := {| note_location := {| latitude := 1; longitude := 2 |};
               message := "first" |} in
  let N2 := {| note_location := {| latitude := 1; longitude := 2 |};
               message := "second" |} in
  let streams : gmap session_id (list RouteNote) :=
    {[ 1%nat := [N1]; 2%nat := [N2] ]} in
  let st := run [1; 2; 1; 2; 2]%nat (ChatState_init streams) in
  sessions st !! 1%nat =
    Some {| position := AtScan N1 0; inbound := []; outbound := [] |}
  /\ sessions st !! 2%nat =
       Some {| position := AtLock N2; inbound := []; outbound := [] |}
  /\ (forall t sess,
        sessions st !! t = Some sess -> owns_lock (position sess) = true ->
        1%nat = t).
Proof.
  intros N1 N2 streams st.
  assert (H1 : sessions st !! 1%nat =
               Some {| position := AtScan N1 0; inbound := []; outbound := [] |})
    by (vm_compute; reflexivity).
  split; [exact H1|]. split; [vm_compute; reflexivity|].
  intros t sess Ht Hown.
  exact (RouteChat_mutual_exclusion streams [1; 2; 1; 2; 2]%nat 1%nat t _ sess
           H1 Ht eq_refl Hown).
Defined.

Lemma owner_inv_step s st st' :
  owner_inv st -> RouteChat_step s st = Some st' -> owner_inv st'.
Proof.
  intros Hinv H o Ho.
  destruct (decide (o = s)) as [->|Hne].
  - step_cases H; cbn [sessions mu_] in *;
      try (eexists; split; [apply lookup_insert_eq|reflexivity]);
      try discriminate Ho;
      destruct (Hinv s Ho) as (sess' & Hs' & Hown);
      match goal with
      | E : sessions st !! s = Some _ |- _ =>
          rewrite E in Hs'; injection Hs' as <-
      end;
      match goal with
      | E : position _ = _ |- _ => rewrite E in Hown; discriminate Hown
      end.
  - assert (Hmu : mu_ st = Some o).
    { step_cases H; cbn [mu_] in Ho; congruence. }
    destruct (Hinv o Hmu) as (sess & Hs & Hown).
    exists sess. rewrite (RouteChat_step_frame s o st st' H Hne). auto.
Qed.

Lemma owner_inv_reachable streams schedule :
  owner_inv (run schedule (ChatState_init streams)).
Proof.
  apply (run_invariant owner_inv).
  - intros s st st'. apply owner_inv_step.
  - intros s Hs. discriminate Hs.
Qed.

(** X10. The lock is never left behind: in every state the service
    reaches, under every interleaving, a locked [mu_] is owned by a
    session that is inside the loop body, between locking and releasing;
    so [mu_] is free whenever no session is there, in particular once all
    sessions have returned. *)
Theorem RouteChat_lock_released
    (streams : gmap session_id (list RouteNote)) (schedule : list session_id) :
  let st := run schedule (ChatState_init streams) in
  (forall owner : session_id, mu_ st = Some owner ->
     exists sess : Session,
       sessions st !! owner = Some sess /\ owns_lock (position sess) = true)
  /\ ((forall (s : session_id) (sess : Session),
         sessions st !! s = Some sess -> owns_lock (position sess) = false) ->
      mu_ st = None)
  /\ ((forall (s : session_id) (sess : Session),
         sessions st !! s = Some sess ->
         exists status, position sess = Returned status) ->
      mu_ st = None).
Proof.
  intros st.
  pose proof (owner_inv_reachable streams schedule) as Hown. fold st in Hown.
  assert (Hfree : (forall (s : session_id) (sess : Session),
                     sessions st !! s = Some sess ->
                     owns_lock (position sess) = false) ->
                  mu_ st = None).
  { intros Hall. destruct (mu_ st) as [owner|] eqn:Hmu; [|reflexivity].
    destruct (Hown owner Hmu) as (sess & Hs & Ho).
    rewrite (Hall owner sess Hs) in Ho. discriminate Ho. }
  split; [exact Hown|]. split; [exact Hfree|].
  intros Hall. apply Hfree. intros s sess Hs.
  destruct (Hall s sess Hs) as [status ->]. reflexivity.
Qed.

(** X11. Replies are stored notes: in every state the service reaches,
    whatever a session has written to its client is among the notes in
    [received_notes_]; the service never sends a note it did not store. *)
Theorem RouteChat_replies_are_stored
    (streams : gmap session_id (list RouteNote)) (schedule : list session_id)
    (s : session_id) (sess : Session) (note : RouteNote) :
  sessions (run schedule (ChatState_init streams)) !! s = Some sess ->
  note ∈ outbound sess ->
  note ∈ received_notes_ (run schedule (ChatState_init streams)).
Proof.
  revert s sess note.
  apply (run_invariant
           (fun st => forall s sess note,
                sessions st !! s = Some sess -> note ∈ outbound sess ->
                note ∈ received_notes_ st)).
  - intros t st st' Hinv H s sess note Hs Hin.
    assert (Hsub : forall n, n ∈ received_notes_ st -> n ∈ received_notes_ st').
    { intros n Hn. pose proof (RouteChat_step_prefix t st) as Hpre.
      rewrite H in Hpre. simpl in Hpre.
      destruct Hpre as [k ->]. apply elem_of_app. left. exact Hn. }
    destruct (decide (s = t)) as [->|Hne].
    + step_cases H; cbn [sessions] in Hs; rewrite lookup_insert_eq in Hs;
        injection Hs as <-; cbn [outbound] in Hin;
        try (apply Hsub; eapply Hinv; eassumption).
      (* the scan passed a stored note on to the client *)
      destruct (same_point _ _);
        [|apply Hsub; eapply Hinv; eassumption].
      apply elem_of_app in Hin. destruct Hin as [Hin|Hin];
        [apply Hsub; eapply Hinv; eassumption|].
      apply list_elem_of_singleton in Hin. subst note.
      eapply list_elem_of_lookup_2. eassumption.
    + rewrite (RouteChat_step_frame t s st st' H Hne) in Hs.
      apply Hsub. eapply Hinv; eassumption.
  - intros s sess note Hs Hin. cbn in Hs. rewrite lookup_fmap in Hs.
    destruct (streams !! s); [|discriminate]. injection Hs as <-.
    apply elem_of_nil in Hin. destruct Hin.
Qed.

Lemma RouteChat_replies_are_stored_witness :
  let N1 := {| note_location := {| latitude := 1; longitude := 2 |};
               message := "first" |} in
  let N2 := {| note_location := {| latitude := 1; longitude := 2 |};
               message := "second" |} in
  let streams : gmap session_id (list RouteNote) :=
    {[ 1%nat := [N1]; 2%nat := [N2] ]} in
  let st := run [1; 1; 1; 1; 2; 2; 2]%nat (ChatState_init streams) in
  sessions st !! 2%nat =
    Some {| position := AtScan N2 1; inbound := []; outbound := [N1] |}
  /\ N1 ∈ received_notes_ st.
Proof.
  intros N1 N2 streams st.
  assert (H2 : sessions st !! 2%nat =
               Some {| position := AtScan N2 1; inbound := []; outbound := [N1] |})
    by (vm_compute; reflexivity).
  split; [exact H2|].
  apply (RouteChat_replies_are_stored streams [1; 1; 1; 1; 2; 2; 2]%nat 2%nat
           _ N1 H2).
  left.
Defined.

(** X12. A session returns only at the end of its stream, and only with
    [Status::OK]: in every state the service reaches, a session that has
    returned has no inbound note left and its status is OK. *)
Theorem RouteChat_returns_OK
    (streams : gmap session_id (list RouteNote)) (schedule : list session_id)
    (s : session_id) (sess : Session) (status : Status) :
  sessions (run schedule (ChatState_init streams)) !! s = Some sess ->
  position sess = Returned status ->
  status = Status_OK /\ inbound sess = [].
Proof.
  revert s sess status.
  apply (run_invariant
           (fun st => forall s sess status,
                sessions st !! s = Some sess ->
                position sess = Returned status ->
                status = Status_OK /\ inbound sess = [])).
  - intros t st st' Hinv H s sess status Hs Hp.
    destruct (decide (s = t)) as [->|Hne].
    + step_cases H; cbn [sessions] in Hs; rewrite lookup_insert_eq in Hs;
        injection Hs as <-; cbn [position inbound] in *;
        try discriminate Hp.
      injection Hp as <-. auto.
    + rewrite (RouteChat_step_frame t s st st' H Hne) in Hs.
      eapply Hinv; eassumption.
  - intros s sess status Hs Hp. cbn in Hs. rewrite lookup_fmap in Hs.
    destruct (streams !! s); [|discriminate]. injection Hs as <-.
    discriminate Hp.
Qed.

Lemma RouteChat_returns_OK_witness :
  let N1 := {| note_location := {| latitude := 1; longitude := 2 |};
               message := "first" |} in
  let streams : gmap session_id (list RouteNote) := {[ 1%nat := [N1] ]} in
  let st := run [1; 1; 1; 1; 1]%nat (ChatState_init streams) in
  sessions st !! 1%nat =
    Some {| position := Returned Status_OK; inbound := []; outbound := [] |}
  /\ Status_OK = Status_OK /\ @nil RouteNote = [].
Proof.
  intros N1 streams st.
  assert (H1 : sessions st !! 1%nat =
               Some {| position := Returned Status_OK; inbound := [];
                       outbound := [] |})
    by (vm_compute; reflexivity).
  split; [exact H1|].
  exact (RouteChat_returns_OK streams [1; 1; 1; 1; 1]%nat 1%nat _ Status_OK
           H1 eq_refl).
Defined.

(** *** No note is lost or stored twice *)

Lemma all_pending_update (sessions0 : gmap session_id Session) s sess sess' :
  sessions0 !! s = Some sess ->
  exists others,
    (map_to_list (<[s := sess']> sessions0) ≫= (fun entry => pending entry.2))
      ≡ₚ pending sess' ++ others
    /\ (map_to_list sessions0 ≫= (fun entry => pending entry.2))
         ≡ₚ pending sess ++ others.
Proof.
  intros Hs.
  exists (map_to_list (delete s sessions0) ≫= (fun entry => pending entry.2)).
  split.
  - rewrite <- insert_delete_eq.
    rewrite map_to_list_insert by apply lookup_delete_eq.
    reflexivity.
  - rewrite <- (map_to_list_delete sessions0 s sess Hs). reflexivity.
Qed.

Lemma conservation_step s st st' :
  RouteChat_step s st = Some st' ->
  received_notes_ st' ++ all_pending st' ≡ₚ received_notes_ st ++ all_pending st.
Proof.
  intros H. unfold all_pending.
  destruct (sessions st !! s) as [sess|] eqn:Hs;
    [|unfold RouteChat_step in H; rewrite Hs in H; discriminate H].
  assert (Hupd : forall sess', sessions st' = <[s := sess']> (sessions st) ->
            forall log', log' ++ pending sess' ≡ₚ received_notes_ st ++ pending sess ->
            log' ++ (map_to_list (sessions st') ≫= (fun entry => pending entry.2))
              ≡ₚ received_notes_ st ++
                 (map_to_list (sessions st) ≫= (fun entry => pending entry.2))).
  { intros sess' -> log' Hlog.
    destruct (all_pending_update (sessions st) s sess sess' Hs)
      as (others & -> & ->).
    rewrite !app_assoc, Hlog. reflexivity. }
  unfold RouteChat_step in H. rewrite Hs in H.
  destruct (position sess) as [|n|n i| |status] eqn:Hp.
  - destruct (inbound sess) as [|n rest] eqn:Hin; injection H as <-;
      (eapply Hupd; [reflexivity|]); unfold pending; cbn; rewrite Hp, Hin;
      reflexivity.
  - destruct (mu_ st); [discriminate|]. injection H as <-.
    (eapply Hupd; [reflexivity|]); unfold pending; cbn; rewrite Hp.
    reflexivity.
  - destruct (received_notes_ st !! i); injection H as <-;
      (eapply Hupd; [reflexivity|]); unfold pending; cbn; rewrite Hp.
    + reflexivity.
    + rewrite <- app_assoc. reflexivity.
  - injection H as <-.
    (eapply Hupd; [reflexivity|]); unfold pending; cbn; rewrite Hp.
    reflexivity.
  - discriminate.
Qed.

Lemma all_pending_init streams :
  all_pending (ChatState_init streams) = all_notes streams.
Proof.
  unfold all_pending, all_notes. cbn [sessions ChatState_init].
  rewrite map_to_list_fmap.
  induction (map_to_list streams) as [|[s stream] rest IH]; [reflexivity|].
  cbn. rewrite <- IH. reflexivity.
Qed.

Lemma all_pending_returned st :
  (forall s sess, sessions st !! s = Some sess ->
                  exists status, position sess = Returned status) ->
  all_pending st = [].
Proof.
  intros Hall. unfold all_pending.
  assert (H : forall entry, entry ∈ map_to_list (sessions st) ->
                            pending entry.2 = []).
  { intros [s sess] Hin. apply elem_of_map_to_list in Hin.
    destruct (Hall s sess Hin) as [status Hp]. unfold pending. cbn.
    rewrite Hp. reflexivity. }
  induction (map_to_list (sessions st)) as [|entry rest IH]; [reflexivity|].
  cbn. rewrite (H entry) by left. cbn. apply IH.
  intros e He. apply H. right. exact He.
Qed.

(** X13. No note is lost or stored twice.  In every state the service
    reaches, the stored notes together with the notes the sessions have
    still to store are, up to order, exactly the notes of all the inbound
    streams; once every session has returned, [received_notes_] is a
    rearrangement of all the notes sent. *)
Theorem RouteChat_conserves_notes
    (streams : gmap session_id (list RouteNote)) (schedule : list session_id) :
  let st := run schedule (ChatState_init streams) in
  received_notes_ st ++ all_pending st ≡ₚ all_notes streams
  /\ ((forall s sess, sessions st !! s = Some sess ->
                      exists status, position sess = Returned status) ->
      received_notes_ st ≡ₚ all_notes streams).
Proof.
  intros st.
  assert (H : received_notes_ st ++ all_pending st ≡ₚ all_notes streams).
  { unfold st.
    apply (run_invariant
             (fun st => received_notes_ st ++ all_pending st ≡ₚ all_notes streams)).
    - intros s st1 st2 Hinv Hstep.
      rewrite (conservation_step s st1 st2 Hstep). exact Hinv.
    - rewrite all_pending_init. reflexivity. }
  split; [exact H|].
  intros Hall. rewrite (all_pending_returned st Hall), app_nil_r in H. exact H.
Qed.

Lemma RouteChat_conserves_notes_witness :
  let N1 := {| note_location := {| latitude := 1; longitude := 2 |};
               message := "first" |} in
  let N2 := {| note_location := {| latitude := 3; longitude := 4 |};
               message := "second" |} in
  let streams : gmap session_id (list RouteNote) :=
    {[ 1%nat := [N1]; 2%nat := [N2] ]} in
  let st := run [2; 1; 2; 2; 1; 2; 1; 1; 1; 2; 1; 1]%nat (ChatState_init streams) in
  received_notes_ st = [N2; N1]
  /\ received_notes_ st ≡ₚ all_notes streams.
Proof.
  intros N1 N2 streams st.
  split; [vm_compute; reflexivity|].
  apply (proj2 (RouteChat_conserves_notes streams
                  [2; 1; 2; 2; 1; 2; 1; 1; 1; 2; 1; 1]%nat)).
  intros s sess Hs.
  assert (E : sessions (run [2; 1; 2; 2; 1; 2; 1; 1; 1; 2; 1; 1]%nat
                          (ChatState_init streams)) =
              {[ 1%nat := {| position := Returned Status_OK; inbound := [];
                             outbound := [] |};
                 2%nat := {| position := Returned Status_OK; inbound := [];
                             outbound := [] |} ]})
    by (vm_compute; reflexivity).
  rewrite E in Hs.
  apply lookup_insert_Some in Hs. destruct Hs as [[_ <-]|[_ Hs]]; [eauto|].
  apply lookup_singleton_Some in Hs. destruct Hs as [_ <-]. eauto.
Defined.

(** *** A session running alone *)

Lemma run_solo_frame s t k :
  t <> s ->
  forall st, sessions (run (replicate k s) st) !! t = sessions st !! t.
Proof.
  intros Hne. induction k as [|k IH]; intros st; [reflexivity|].
  rewrite replicate_S, run_cons, IH.
  destruct (RouteChat_step s st) as [st'|] eqn:E; simpl; [|reflexivity].
  eapply RouteChat_step_frame; eassumption.
Qed.

Lemma RouteChat_solo_run_aux s stream :
  forall st sess,
    lock_inv st ->
    mu_ st = None ->
    sessions st !! s = Some sess ->
    position sess = AtRead ->
    inbound sess = stream ->
    let st' :=
      run (replicate (solo_steps (length (received_notes_ st)) stream) s) st in
    sessions st' !! s =
      Some {| position := Returned Status_OK;
              inbound := [];
              outbound :=
                outbound sess ++ solo_replies (received_notes_ st) stream |}
    /\ received_notes_ st' = received_notes_ st ++ stream
    /\ mu_ st' = None.
Proof.
  induction stream as [|n rest IH]; intros st sess Hinv Hmu Hs Hp Hin st'.
  - unfold st'. cbn [solo_steps replicate run].
    unfold RouteChat_step. rewrite Hs, Hp, Hin. simpl.
    rewrite lookup_insert_eq, !app_nil_r. auto.
  - unfold st'. clear st'. cbn [solo_steps solo_replies].
    set (len := length (received_notes_ st)).
    replace (len + 4)%nat with (2 + (S len + 1))%nat by lia.
    rewrite !replicate_add, !run_app.
    change (replicate 2 s) with [s; s]. change (replicate 1 s) with [s].
    (* read the note, then lock *)
    set (sess1 := {| position := AtLock n; inbound := rest;
                     outbound := outbound sess |}).
    set (st1 := {| received_notes_ := received_notes_ st; mu_ := mu_ st;
                   sessions := <[s := sess1]> (sessions st) |}).
    assert (H1 : RouteChat_step s st = Some st1).
    { unfold RouteChat_step. rewrite Hs, Hp, Hin. reflexivity. }
    set (sess2 := {| position := AtScan n 0; inbound := rest;
                     outbound := outbound sess |}).
    set (st2 := {| received_notes_ := received_notes_ st; mu_ := Some s;
                   sessions := <[s := sess2]> (sessions st1) |}).
    assert (H2 : RouteChat_step s st1 = Some st2).
    { unfold RouteChat_step. cbn [sessions st1].
      rewrite lookup_insert_eq. cbn. rewrite Hmu. reflexivity. }
    assert (E12 : run [s; s] st = st2).
    { cbn [run]. rewrite H1. simpl default. rewrite H2. reflexivity. }
    rewrite E12.
    (* scan and store *)
    assert (Hinv2 : lock_inv st2)
      by (eapply lock_inv_step; [eapply lock_inv_step|]; eassumption).
    assert (Hs2 : sessions st2 !! s = Some sess2) by apply lookup_insert_eq.
    destruct (RouteChat_pass_completes s n st2 sess2 Hs2 eq_refl)
      as (sess3 & Hs3 & Hp3 & Hin3).
    destruct (pass_inv_run _ _ _ _ _ (replicate (S len) s) _
                (pass_inv_start st2 s sess2 n Hinv2 Hs2 eq_refl))
      as (Hinv3 & sess3' & Hs3' & _ & Hpos3).
    change (length (received_notes_ st2)) with len in Hs3.
    rewrite Hs3 in Hs3'. injection Hs3' as <-.
    specialize (Hpos3 Hin3). rewrite Hp3 in Hpos3.
    destruct Hpos3 as (Hlog3 & Hout3).
    set (st3 := run (replicate (S len) s) st2) in *.
    (* unlock *)
    set (sess4 := {| position := AtRead; inbound := inbound sess3;
                     outbound := outbound sess3 |}).
    set (st4 := {| received_notes_ := received_notes_ st3; mu_ := None;
                   sessions := <[s := sess4]> (sessions st3) |}).
    assert (H4 : RouteChat_step s st3 = Some st4).
    { unfold RouteChat_step. rewrite Hs3, Hp3. reflexivity. }
    assert (E4 : run [s] st3 = st4).
    { cbn [run]. rewrite H4. reflexivity. }
    rewrite E4.
    (* the rest of the stream *)
    assert (Hinv4 : lock_inv st4) by (eapply lock_inv_step; eassumption).
    assert (Hlen4 : length (received_notes_ st4) = S len).
    { cbn [received_notes_ st4]. rewrite Hlog3, length_app. cbn [length].
      unfold len. cbn [received_notes_ st2]. lia. }
    pose proof (IH st4 sess4 Hinv4 eq_refl (lookup_insert_eq _ _ _) eq_refl Hin3)
      as HIH.
    cbv zeta in HIH. rewrite Hlen4 in HIH.
    destruct HIH as (Hfinal & Hlog & Hmu').
    cbn [received_notes_ st4 outbound sess4] in Hfinal, Hlog.
    rewrite Hlog3 in Hfinal, Hlog. rewrite Hout3 in Hfinal.
    cbn [outbound sess2 received_notes_ st2] in Hfinal, Hlog.
    rewrite <- !app_assoc in Hfinal, Hlog. cbn [app] in Hlog.
    auto.
Qed.

(** X14. A session that runs alone.  From a state where [mu_] is free and
    session [s] is at the head of its loop, letting [s] alone execute
    brings it to return [Status::OK] with its stream read to the end,
    after four statements per note, one per stored note scanned and a last
    read.  Every note of the stream was stored, in order, after the notes
    already there; for each note in turn the session wrote the notes
    stored before it at the same location, its own earlier notes
    included; [mu_] is free again and no other session was touched. *)
Theorem RouteChat_solo_run (st : ChatState) (s : session_id) (sess : Session) :
  lock_inv st ->
  mu_ st = None ->
  sessions st !! s = Some sess ->
  position sess = AtRead ->
  let st' :=
    run (replicate (solo_steps (length (received_notes_ st)) (inbound sess)) s)
      st in
  sessions st' !! s =
    Some {| position := Returned Status_OK;
            inbound := [];
            outbound :=
              outbound sess ++ solo_replies (received_notes_ st) (inbound sess) |}
  /\ received_notes_ st' = received_notes_ st ++ inbound sess
  /\ mu_ st' = None
  /\ (forall t, t <> s -> sessions st' !! t = sessions st !! t).
Proof.
  intros Hinv Hmu Hs Hp st'.
  destruct (RouteChat_solo_run_aux s (inbound sess) st sess Hinv Hmu Hs Hp eq_refl)
    as (H1 & H2 & H3).
  repeat split; try assumption.
  intros t Hne. apply run_solo_frame, Hne.
Qed.

Lemma RouteChat_solo_run_witness :
  let Q := {| latitude := 407838351; longitude := -746143763 |} in
  let R := {| latitude := 1; longitude := 2 |} in
  let N1 := {| note_location := Q; message := "first" |} in
  let N2 := {| note_location := R; message := "second" |} in
  let N3 := {| note_location := Q; message := "third" |} in
  let streams : gmap session_id (list RouteNote) :=
    {[ 1%nat := [N1; N2; N3; N1] ]} in
  let st' := run (replicate 23 1%nat) (ChatState_init streams) in
  sessions st' !! 1%nat =
    Some {| position := Returned Status_OK; inbound := [];
            outbound := [N1; N1; N3] |}
  /\ received_notes_ st' = [N1; N2; N3; N1].
Proof.
  intros Q R N1 N2 N3 streams st'.
  destruct (RouteChat_solo_run (ChatState_init streams) 1%nat
              (Session_start [N1; N2; N3; N1])
              (lock_inv_init streams) eq_refl eq_refl eq_refl)
    as (H1 & H2 & _).
  split; [exact H1|exact H2].
Defined.

(** ** ConvertToRadians *)

Lemma binary_round_aux_opp prec emax s m e l :
  binary_round_aux prec emax (negb s) m e l =
    SFopp (binary_round_aux prec emax s m e l).
Proof.
  unfold binary_round_aux.
  destruct (shr_fexp prec emax m e l) as [mrs1 e1].
  destruct (shr_fexp prec emax _ e1 loc_Exact) as [mrs2 e2].
  destruct (shr_m mrs2); [reflexivity| |reflexivity].
  destruct (e2 <=? emax - prec); reflexivity.
Qed.

Lemma binary_round_opp prec emax s m e :
  binary_round prec emax (negb s) m e = SFopp (binary_round prec emax s m e).
Proof.
  unfold binary_round. destruct (shl_align m e _) as [mz ez].
  apply binary_round_aux_opp.
Qed.

Lemma xorb_negb_l (a b : bool) : xorb (negb a) b = negb (xorb a b).
Proof. destruct a, b; reflexivity. Qed.

Lemma SFmul_opp_l prec emax x y :
  SFmul prec emax (SFopp x) y = SFopp (SFmul prec emax x y).
Proof.
  destruct x as [sx|sx| |sx mx ex], y as [sy|sy| |sy my ey]; cbn [SFmul SFopp];
    rewrite ?xorb_negb_l; try reflexivity.
  apply binary_round_aux_opp.
Qed.

Lemma SFdiv_opp_l prec emax x y :
  SFdiv prec emax (SFopp x) y = SFopp (SFdiv prec emax x y).
Proof.
  destruct x as [sx|sx| |sx mx ex], y as [sy|sy| |sy my ey]; cbn [SFdiv SFopp];
    rewrite ?xorb_negb_l; try reflexivity.
  destruct (SFdiv_core_binary prec emax (Z.pos mx) ex (Z.pos my) ey)
    as [[mz ez] lz].
  apply binary_round_aux_opp.
Qed.

Lemma float_to_double_opp x :
  float_to_double (SFopp x) = SFopp (float_to_double x).
Proof. destruct x; try reflexivity. apply binary_round_opp. Qed.

Lemma double_to_float_opp x :
  double_to_float (SFopp x) = SFopp (double_to_float x).
Proof. destruct x; try reflexivity. apply binary_round_opp. Qed.

(** X15. [ConvertToRadians] is an odd function, exactly: negating the
    argument negates the result, bit for bit, for every [float].  Zeros
    and infinities are returned with their sign, and a NaN gives a NaN. *)
Theorem ConvertToRadians_odd (num : float) (s : bool) :
  ConvertToRadians (SFopp num) = SFopp (ConvertToRadians num)
  /\ ConvertToRadians (S754_zero s) = S754_zero s
  /\ ConvertToRadians (S754_infinity s) = S754_infinity s
  /\ ConvertToRadians S754_nan = S754_nan.
Proof.
  split; [|destruct s; repeat split].
  unfold ConvertToRadians, double_mul, double_div.
  rewrite float_to_double_opp, SFmul_opp_l, SFdiv_opp_l, double_to_float_opp.
  reflexivity.
Qed.

(** ** Signs, and the size of the values *)









Lemma digits2_pos_size p : digits2_pos p = Pos.size p.
Proof. induction p; cbn; congruence. Qed.

Lemma Zdigits2_log2 m : 0 < m -> Zdigits2 m = Z.log2 m + 1.
Proof.
  destruct m as [|p|p]; try lia. intros _. cbn [Zdigits2].
  rewrite digits2_pos_size. destruct p; cbn; lia.
Qed.

Lemma Zdigits2_nonneg m : 0 <= m -> 0 <= Zdigits2 m.
Proof. destruct m; cbn; lia. Qed.

Lemma Zdigits2_mono a b : 0 <= a <= b -> Zdigits2 a <= Zdigits2 b.
Proof.
  intros [Ha Hab]. destruct (Z.eq_dec a 0) as [->|Hne].
  - cbn. apply Zdigits2_nonneg. lia.
  - rewrite !Zdigits2_log2 by lia. pose proof (Z.log2_le_mono a b Hab) as H.
    revert H. generalize (Z.log2 a), (Z.log2 b). lia.
Qed.

Lemma Zdigits2_succ a : 0 <= a -> Zdigits2 (a + 1) <= Zdigits2 a + 1.
Proof.
  intros Ha. destruct (Z.eq_dec a 0) as [->|Hne]; [cbv; congruence|].
  rewrite !Zdigits2_log2 by lia.
  pose proof (Z.log2_succ_le a) as H. unfold Z.succ in H.
  revert H. generalize (Z.log2 (a + 1)), (Z.log2 a). lia.
Qed.

Lemma Zdigits2_shiftr a n :
  0 <= a -> 0 <= n -> Zdigits2 (Z.shiftr a n) <= Z.max 0 (Zdigits2 a - n).
Proof.
  intros Ha Hn. destruct (Z.eq_dec a 0) as [->|Hne].
  - rewrite Z.shiftr_0_l. change (Zdigits2 0) with 0. lia.
  - assert (0 <= Z.shiftr a n) by (apply Z.shiftr_nonneg; lia).
    destruct (Z.eq_dec (Z.shiftr a n) 0) as [E|E]; [rewrite E; change (Zdigits2 0) with 0; lia|].
    assert (Hn' : n <= Z.log2 a).
    { destruct (Z_lt_le_dec (Z.log2 a) n) as [Hlt|Hle]; [|exact Hle].
      exfalso. apply E, Z.shiftr_eq_0; lia. }
    rewrite !Zdigits2_log2 by lia.
    rewrite Z.log2_shiftr by lia. revert Hn'. generalize (Z.log2 a). lia.
Qed.

Lemma Zdigits2_shiftl a n :
  0 < a -> 0 <= n -> Zdigits2 (Z.shiftl a n) = Zdigits2 a + n.
Proof.
  intros Ha Hn.
  assert (0 < Z.shiftl a n).
  { rewrite Z.shiftl_mul_pow2 by lia. apply Z.mul_pos_pos; [lia|].
    apply Z.pow_pos_nonneg; lia. }
  rewrite !Zdigits2_log2 by lia. rewrite Z.log2_shiftl by lia. lia.
Qed.

Lemma shr_1_m mrs : 0 <= shr_m mrs -> shr_m (shr_1 mrs) = Z.div2 (shr_m mrs).
Proof.
  destruct mrs as [m r s]. cbn [shr_m]. intros Hm. unfold shr_1.
  destruct m as [|[p|p|]|p]; try lia; reflexivity.
Qed.

Lemma iter_shr_1_m p :
  forall mrs, 0 <= shr_m mrs ->
    shr_m (SpecFloat.iter_pos shr_1 p mrs) = Z.shiftr (shr_m mrs) (Z.pos p).
Proof.
  induction p as [p IH|p IH|]; intros mrs Hm; cbn [SpecFloat.iter_pos].
  - assert (H1 : 0 <= shr_m (shr_1 mrs)).
    { rewrite shr_1_m by lia. rewrite Z.div2_spec. apply Z.shiftr_nonneg. lia. }
    assert (H2 : 0 <= shr_m (SpecFloat.iter_pos shr_1 p (shr_1 mrs))).
    { rewrite IH by lia. apply Z.shiftr_nonneg. lia. }
    rewrite IH, IH, shr_1_m by lia.
    rewrite Z.div2_spec, !Z.shiftr_shiftr by lia. f_equal. lia.
  - assert (H2 : 0 <= shr_m (SpecFloat.iter_pos shr_1 p mrs)).
    { rewrite IH by lia. apply Z.shiftr_nonneg. lia. }
    rewrite IH, IH by lia. rewrite Z.shiftr_shiftr by lia. f_equal. lia.
  - rewrite shr_1_m by lia. apply Z.div2_spec.
Qed.

Lemma magnitude_le_finite B x : magnitude_le B x -> is_finite x = true.
Proof. destruct x; cbn; intros H; try reflexivity; destruct H. Qed.

Lemma shr_record_of_loc_m m l : shr_m (shr_record_of_loc m l) = m.
Proof. destruct l as [|[]]; reflexivity. Qed.

Lemma shr_fexp_spec prec emax m e l :
  0 <= m ->
  0 <= shr_m (shr_fexp prec emax m e l).1
  /\ (shr_fexp prec emax m e l).2 = Z.max e (fexp prec emax (Zdigits2 m + e))
  /\ Zdigits2 (shr_m (shr_fexp prec emax m e l).1) + (shr_fexp prec emax m e l).2
       <= Z.max (Zdigits2 m + e) (shr_fexp prec emax m e l).2.
Proof.
  intros Hm. unfold shr_fexp, shr.
  set (F := fexp prec emax (Zdigits2 m + e)).
  destruct (F - e) as [|p|p] eqn:En; cbn [fst snd].
  - rewrite shr_record_of_loc_m. repeat split; lia.
  - rewrite iter_shr_1_m, shr_record_of_loc_m
      by (rewrite shr_record_of_loc_m; exact Hm).
    split; [apply Z.shiftr_nonneg; exact Hm|]. split; [lia|].
    pose proof (Zdigits2_shiftr m (Z.pos p) Hm ltac:(lia)). lia.
  - rewrite shr_record_of_loc_m. repeat split; lia.
Qed.

Lemma round_nearest_even_bounds m l :
  0 <= m -> m <= round_nearest_even m l <= m + 1.
Proof.
  intros Hm. unfold round_nearest_even.
  destruct l as [|[]]; try lia. destruct (Z.even m); lia.
Qed.

Lemma binary_round_aux_magnitude prec emax s mx ex lx B :
  1 <= prec ->
  emin prec emax <= B ->
  B <= emax - prec ->
  0 <= mx ->
  Zdigits2 mx + ex <= B ->
  magnitude_le (B + 1) (binary_round_aux prec emax s mx ex lx).
Proof.
  intros Hprec Hemin HB Hmx Hmag.
  assert (Hex : ex <= B) by (pose proof (Zdigits2_nonneg mx Hmx); lia).
  assert (HF : forall x, x <= B + 1 -> fexp prec emax x <= B)
    by (intros x Hx; unfold fexp; lia).
  unfold binary_round_aux.
  destruct (shr_fexp_spec prec emax mx ex lx Hmx) as (H1 & H2 & H3).
  destruct (shr_fexp prec emax mx ex lx) as [mrs1 e1]. cbn [fst snd] in *.
  set (m1 := round_nearest_even (shr_m mrs1) (loc_of_shr_record mrs1)).
  pose proof (round_nearest_even_bounds (shr_m mrs1) (loc_of_shr_record mrs1) H1)
    as Hm1. fold m1 in Hm1.
  assert (He1 : e1 <= B) by (rewrite H2; specialize (HF (Zdigits2 mx + ex)); lia).
  assert (Hd1 : Zdigits2 m1 <= Zdigits2 (shr_m mrs1) + 1).
  { etransitivity; [apply (Zdigits2_mono m1 (shr_m mrs1 + 1)); lia|].
    apply Zdigits2_succ, H1. }
  destruct (shr_fexp_spec prec emax m1 e1 loc_Exact ltac:(lia)) as (G1 & G2 & G3).
  destruct (shr_fexp prec emax m1 e1 loc_Exact) as [mrs2 e2].
  cbn [fst snd] in *.
  assert (He2 : e2 <= B) by (rewrite G2; specialize (HF (Zdigits2 m1 + e1)); lia).
  destruct (shr_m mrs2) as [|m|m] eqn:Em; [exact I| |lia].
  replace (e2 <=? emax - prec) with true by (symmetry; apply Z.leb_le; lia).
  unfold magnitude_le. lia.
Qed.

Lemma digits_iter_xO m d :
  Zdigits2 (Z.pos (Pos.iter xO m d)) = Zdigits2 (Z.pos m) + Z.pos d.
Proof.
  induction d as [|d IH] using Pos.peano_ind.
  - cbn. lia.
  - rewrite Pos.iter_succ. cbn [Zdigits2 digits2_pos] in *. lia.
Qed.

Lemma shl_align_magnitude m e e' :
  Zdigits2 (Z.pos (shl_align m e e').1) + (shl_align m e e').2 =
    Zdigits2 (Z.pos m) + e.
Proof.
  unfold shl_align. destruct (e' - e) as [|d|d] eqn:E; cbn [fst snd];
    try reflexivity.
  rewrite digits_iter_xO. lia.
Qed.

Lemma binary_round_magnitude prec emax s m e B :
  1 <= prec ->
  emin prec emax <= B ->
  B <= emax - prec ->
  Zdigits2 (Z.pos m) + e <= B ->
  magnitude_le (B + 1) (binary_round prec emax s m e).
Proof.
  intros Hprec Hemin HB Hmag. unfold binary_round.
  pose proof (shl_align_magnitude m e
                (fexp prec emax (Z.pos (digits2_pos m) + e))) as H.
  destruct (shl_align m e _) as [mz ez]. cbn [fst snd] in H.
  apply binary_round_aux_magnitude; try assumption; lia.
Qed.



Lemma SFdiv_core_binary_spec prec emax m1 e1 m2 e2 :
  0 < m1 -> 0 < m2 ->
  0 <= (SFdiv_core_binary prec emax m1 e1 m2 e2).1.1
  /\ Zdigits2 (SFdiv_core_binary prec emax m1 e1 m2 e2).1.1
       + (SFdiv_core_binary prec emax m1 e1 m2 e2).1.2
     <= Zdigits2 m1 + e1 - e2.
Proof.
  intros H1 H2. unfold SFdiv_core_binary.
  set (e' := Z.min _ (e1 - e2)).
  set (s := e1 - e2 - e').
  set (m' := match s with Z.pos _ => Z.shiftl m1 s | 0 => m1 | Z.neg _ => 0 end).
  assert (Hs : 0 <= s) by (unfold s, e'; lia).
  assert (Hm' : 0 <= m' /\ Zdigits2 m' <= Zdigits2 m1 + s).
  { unfold m'. destruct s as [|p|p] eqn:Es; cbv beta iota; try lia.
    split; [apply Z.shiftl_nonneg; lia|].
    rewrite Zdigits2_shiftl by lia. lia. }
  pose proof (Z.div_eucl_eq m' m2 ltac:(lia)) as Heq.
  pose proof (Z.mod_pos_bound m' m2 H2) as Hmod. unfold Z.modulo in Hmod.
  destruct (Z.div_eucl m' m2) as [q r]. cbn [fst snd].
  assert (Hq : 0 <= q <= m') by nia.
  split; [lia|].
  pose proof (Zdigits2_mono q m' Hq). lia.
Qed.

Lemma SFdiv_magnitude prec emax x sy my ey B :
  1 <= prec ->
  emin prec emax <= B - ey ->
  B - ey <= emax - prec ->
  magnitude_le B x ->
  magnitude_le (B - ey + 1) (SFdiv prec emax x (S754_finite sy my ey)).
Proof.
  intros Hprec Hemin HB Hx.
  destruct x as [sx|sx| |sx mx ex]; cbn [SFdiv magnitude_le] in *;
    try exact I; try contradiction.
  pose proof (SFdiv_core_binary_spec prec emax (Z.pos mx) ex (Z.pos my) ey
                ltac:(lia) ltac:(lia)) as [Hq Hmag].
  destruct (SFdiv_core_binary prec emax (Z.pos mx) ex (Z.pos my) ey)
    as [[q e'] l]. cbn [fst snd] in *.
  apply binary_round_aux_magnitude; try assumption. lia.
Qed.


Lemma Zdigits2_mul a b :
  0 < a -> 0 < b -> Zdigits2 (a * b) <= Zdigits2 a + Zdigits2 b.
Proof.
  intros Ha Hb. rewrite !Zdigits2_log2 by lia.
  pose proof (Z.log2_mul_above a b ltac:(lia) ltac:(lia)) as H.
  revert H. generalize (Z.log2 (a * b)), (Z.log2 a), (Z.log2 b). lia.
Qed.

Lemma SFmul_magnitude prec emax x y Bx By :
  1 <= prec ->
  emin prec emax <= Bx + By ->
  Bx + By <= emax - prec ->
  magnitude_le Bx x -> magnitude_le By y ->
  magnitude_le (Bx + By + 1) (SFmul prec emax x y).
Proof.
  intros Hprec Hemin HB Hx Hy.
  destruct x as [sx|sx| |sx mx ex], y as [sy|sy| |sy my ey];
    cbn [SFmul magnitude_le] in *; try exact I; try contradiction.
  apply binary_round_aux_magnitude; try assumption; [lia|].
  pose proof (Zdigits2_mul (Z.pos mx) (Z.pos my) ltac:(lia) ltac:(lia)) as H.
  change (Z.pos (mx * my)) with (Z.pos mx * Z.pos my). lia.
Qed.

Lemma float_to_double_magnitude x B :
  -1000 <= B <= 900 ->
  magnitude_le B x -> magnitude_le (B + 1) (float_to_double x).
Proof.
  intros HB Hx. destruct x as [s|s| |s m e]; cbn [float_to_double magnitude_le] in *;
    try exact I; try contradiction.
  apply binary_round_magnitude; try assumption; cbv [emin]; lia.
Qed.

Lemma double_to_float_magnitude x B :
  -100 <= B <= 104 ->
  magnitude_le B x -> magnitude_le (B + 1) (double_to_float x).
Proof.
  intros HB Hx. destruct x as [s|s| |s m e]; cbn [double_to_float magnitude_le] in *;
    try exact I; try contradiction.
  apply binary_round_magnitude; try assumption; cbv [emin]; lia.
Qed.

(** Degrees that are a number, below 2^34 in magnitude, give radians that
    are a number. *)
Lemma ConvertToRadians_magnitude x :
  magnitude_le 34 x -> magnitude_le 85 (ConvertToRadians x).
Proof.
  intros Hx. unfold ConvertToRadians, double_mul, double_div.
  apply (double_to_float_magnitude _ 84); [lia|].
  change (Z_to_double 180) with (S754_finite false 6333186975989760 (-45)).
  apply (SFdiv_magnitude 53 1024 _ false 6333186975989760 (-45) 38);
    try (cbv; congruence).
  apply (SFmul_magnitude 53 1024 _ _ 35 2); try (cbv; congruence).
  apply (float_to_double_magnitude _ 34); [lia|exact Hx].
Qed.


(** C8, as the code has it.  [ConvertToRadians] multiplies by the literal
    [3.1415926] and divides by 180, in [double], and rounds the quotient to
    [float]: it is the computation the specification words, with the
    [double] nearest to 3.1415926 in the place of pi.  That constant is
    7074237631354954 * 2^-51, within half a unit in the last place of
    31415926 / 10^7, and it is below the [double] nearest to pi.  A number
    of degrees below 2^34 in magnitude gives a number of radians. *)
Theorem ConvertToRadians_literal (num : float) :
  ConvertToRadians num = ConvertToRadians_with literal_3_1415926 num
  /\ literal_3_1415926 = S754_finite false 7074237631354954 (-51)
  /\ 2 * Z.abs (7074237631354954 * 10 ^ 7 - 31415926 * 2 ^ 51) <= 10 ^ 7
  /\ SFcompare literal_3_1415926 pi_double = Some Lt
  /\ (magnitude_le 34 num -> is_finite (ConvertToRadians num) = true).
Proof.
  split; [reflexivity|]. split; [reflexivity|].
  split; [vm_compute; discriminate|]. split; [reflexivity|].
  intros Hnum. apply (magnitude_le_finite 85), ConvertToRadians_magnitude, Hnum.
Qed.

(** C8 as stated fails at 180 degrees.  The code returns 13176794 * 2^-22.
    The same computation with pi, as the [double] nearest to it or as the
    [float] nearest to it, returns 13176795 * 2^-22, the [float] nearest
    to pi, which is the value of 180 * pi / 180.  The three inequalities
    check, on pi cut after eighteen decimals, that these are the nearest
    [double] and [float], and that the value the code returns is more than
    half a unit in the last place below pi. *)
Lemma ConvertToRadians_not_pi :
  let num := int_to_float 180 in
  ConvertToRadians num = S754_finite false 13176794 (-22)
  /\ ConvertToRadians_with pi_double num = pi_float
  /\ ConvertToRadians_with (float_to_double pi_float) num = pi_float
  /\ ConvertToRadians num <> ConvertToRadians_with pi_double num
  /\ ((2 * 7074237752028440 - 1) * 10 ^ 18 < pi_decimals * 2 ^ 52
      /\ (pi_decimals + 1) * 2 ^ 52 < (2 * 7074237752028440 + 1) * 10 ^ 18)
  /\ ((2 * 13176795 - 1) * 10 ^ 18 < pi_decimals * 2 ^ 23
      /\ (pi_decimals + 1) * 2 ^ 23 < (2 * 13176795 + 1) * 10 ^ 18)
  /\ (2 * 13176794 + 1) * 10 ^ 18 < pi_decimals * 2 ^ 23.
Proof.
  intros num. repeat split; try (vm_compute; reflexivity).
  vm_compute. discriminate.
Qed.

(** ** GetDistance *)

Section GetDistance_properties.

Variables sin cos sqrt : double -> double.
Variables atan2 pow : double -> double -> double.

(** What is assumed of the library: [sin] is odd and [pow (., 2)] even, as
    values; [sin 0], [pow (0, 2)], [sqrt 0] and [atan2 (0, 1)] are +0 and
    [sqrt 1] is 1 (the values IEC 60559 fixes); the cosine of a number is
    a number below 2 in magnitude. *)
Hypothesis sin_odd : forall x, sin (SFopp x) = SFopp (sin x).
Hypothesis pow_even :
  forall x, pow (SFopp x) (Z_to_double 2) = pow x (Z_to_double 2).
Hypothesis sin_zero : sin (S754_zero false) = S754_zero false.
Hypothesis pow_zero : pow (S754_zero false) (Z_to_double 2) = S754_zero false.
Hypothesis sqrt_zero : sqrt (S754_zero false) = S754_zero false.
Hypothesis sqrt_one : sqrt (Z_to_double 1) = Z_to_double 1.
Hypothesis atan2_zero :
  atan2 (S754_zero false) (Z_to_double 1) = S754_zero false.
Hypothesis cos_bounded :
  forall x, is_finite x = true -> magnitude_le 1 (cos x).




End GetDistance_properties.

